(** * worker/scraper.py: the Playwright scraper, embedded and verified

    The module wraps a headless-browser engine.  The engine is an external
    collaborator: every call into it either returns a value or raises.
    What it raises are Playwright errors and timeouts, which derive from
    [Exception]; an exception is identified with its [str].  (Cancellation
    of a coroutine from outside, a [BaseException], is not modelled.)

    The embedding keeps the code's shape:

    - a coroutine is a tree ([proc]) whose nodes are the engine calls it
      makes, its reads of the clock, and its reads and assignments of the
      fields of the [WebScraper] object it runs on;
    - a function body lives in an exception-and-locals monad [M] over such
      trees; [try]/[except]/[finally] are combinators of that monad, and an
      exception does not roll the locals back (a dict mutated before the
      [raise] stays mutated);
    - dicts are [gmap]s keyed by strings;
    - [run] executes a coroutine alone against an engine, [exec] relates a
      coroutine to what it observed and returned, and the batch coordinator
      is a step relation that interleaves the trees of the submitted
      coroutines under an [asyncio.Semaphore], over one shared scraper
      object and one engine. *)

From Stdlib Require Import ZArith Lia.
From stdpp Require Import base option list strings gmap relations.

Open Scope string_scope.
Open Scope list_scope.
Open Scope Z_scope.

(** ** The engine interface *)

(** Browser, context, page, element and driver objects are opaque handles. *)
Definition handle := nat.

(** An exception raised by the engine, identified with [str(e)]. *)
Definition exn := string.

Inductive outcome (A : Type) : Type :=
| Ok (a : A)
| Raise (e : exn).
Arguments Ok {A} a.
Arguments Raise {A} e.

(** The navigation response; [scrape] reads only [response.status]. *)
Record Response := { status : Z }.

Inductive call : Type :=
| PlaywrightStart                                   (* async_playwright().start() *)
| ChromiumLaunch (pw : handle) (headless : bool)    (* pw.chromium.launch(headless=..) *)
| NewContext (browser : handle) (width height : Z) (user_agent : string)
| NewPage (context : handle)                        (* context.new_page() *)
| SetDefaultTimeout (page : handle) (timeout : Z)   (* page.set_default_timeout(t) *)
| Goto (page : handle) (url wait_until : string)    (* page.goto(url, wait_until=..) *)
| PageUrl (page : handle)                           (* page.url *)
| WaitForSelector (page : handle) (selector : string)
| Content (page : handle)                           (* page.content() *)
| Title (page : handle)                             (* page.title() *)
| QuerySelectorAll (page : handle) (selector : string)
| QuerySelector (page : handle) (selector : string)
| GetAttribute (element : handle) (name : string)   (* element.get_attribute(name) *)
| PageClose (page : handle)
| ContextClose (context : handle)
| BrowserClose (browser : handle)
| PlaywrightStop (pw : handle).

(** What a call returns when it does not raise. *)
Definition payload (c : call) : Type :=
  match c with
  | PlaywrightStart | ChromiumLaunch _ _ | NewContext _ _ _ _ | NewPage _ => handle
  | SetDefaultTimeout _ _ | WaitForSelector _ _ => unit
  | Goto _ _ _ => option Response
  | PageUrl _ | Content _ | Title _ => string
  | QuerySelectorAll _ _ => list handle
  | QuerySelector _ _ => option handle
  | GetAttribute _ _ => option string
  | PageClose _ | ContextClose _ | BrowserClose _ | PlaywrightStop _ => unit
  end.

(** What a coroutine observes: an engine call with its outcome, or a read of
    the clock ([datetime.utcnow().isoformat()], which does not raise). *)
Inductive event : Type :=
| Ev (c : call) (o : outcome (payload c))
| Tick (t : string).

Definition trace := list event.

(** The engine as the environment: its answer to a call may depend on
    everything that happened before. *)
Record Engine := {
  respond : trace → ∀ c : call, outcome (payload c);
  utcnow : trace → string
}.

(** ** The scraper object *)

(** [playwright = None] stands for the attribute not existing yet
    ([__init__] does not create it; [close] tests [hasattr]). *)
Record WebScraper := {
  headless : bool;
  timeout : Z;
  browser : option handle;
  context : option handle;
  playwright : option handle
}.

(** [WebScraper.__init__] *)
Definition __init__ (headless : bool) (timeout : Z) : WebScraper :=
  {| headless := headless; timeout := timeout;
     browser := None; context := None; playwright := None |}.

Definition set_playwright (v : option handle) (s : WebScraper) : WebScraper :=
  {| headless := headless s; timeout := timeout s;
     browser := browser s; context := context s; playwright := v |}.
Definition set_browser (v : option handle) (s : WebScraper) : WebScraper :=
  {| headless := headless s; timeout := timeout s;
     browser := v; context := context s; playwright := playwright s |}.
Definition set_context (v : option handle) (s : WebScraper) : WebScraper :=
  {| headless := headless s; timeout := timeout s;
     browser := browser s; context := v; playwright := playwright s |}.

(** ** Coroutines *)

Inductive proc (A : Type) : Type :=
| Ret (a : A)
| Call (c : call) (k : outcome (payload c) → proc A)
| Now (k : string → proc A)
| Self (k : WebScraper → proc A)
| Assign (u : WebScraper → WebScraper) (k : proc A).
Arguments Ret {A} a.
Arguments Call {A} c k.
Arguments Now {A} k.
Arguments Self {A} k.
Arguments Assign {A} u k.

Fixpoint proc_bind {A B} (p : proc A) (f : A → proc B) : proc B :=
  match p with
  | Ret a => f a
  | Call c k => Call c (λ o, proc_bind (k o) f)
  | Now k => Now (λ t, proc_bind (k t) f)
  | Self k => Self (λ s, proc_bind (k s) f)
  | Assign u k => Assign u (proc_bind k f)
  end.

(** A Python coroutine function returning [A], or raising. *)
Definition fn (A : Type) : Type := proc (outcome A).

(** A function body over locals [L]: it ends normally or by an exception,
    and in both cases leaves the locals as they then are. *)
Definition M (L A : Type) : Type := L → proc (outcome A * L).

Definition ret {L A} (a : A) : M L A := λ l, Ret (Ok a, l).
Definition raise {L A} (e : exn) : M L A := λ l, Ret (Raise e, l).
Definition bind {L A B} (m : M L A) (f : A → M L B) : M L B :=
  λ l, proc_bind (m l) (λ '(o, l'),
    match o with
    | Ok a => f a l'
    | Raise e => Ret (Raise e, l')
    end).

#[global] Instance M_ret L : MRet (M L) := λ A, @ret L A.
#[global] Instance M_bind L : MBind (M L) := λ A B f m, bind m f.

(** [try: m except Exception as e: h e] *)
Definition try_except {L A} (m : M L A) (h : exn → M L A) : M L A :=
  λ l, proc_bind (m l) (λ '(o, l'),
    match o with
    | Ok a => Ret (Ok a, l')
    | Raise e => h e l'
    end).

(** [try: m finally: fin]; an exception of [fin] replaces the outcome. *)
Definition try_finally {L A} (m : M L A) (fin : M L unit) : M L A :=
  λ l, proc_bind (m l) (λ '(o, l'),
    proc_bind (fin l') (λ '(o', l''),
      match o' with
      | Ok _ => Ret (o, l'')
      | Raise e' => Ret (Raise e', l'')
      end)).

Definition await {L} (c : call) : M L (payload c) := λ l, Call c (λ o, Ret (o, l)).
Definition now {L} : M L string := λ l, Now (λ t, Ret (Ok t, l)).
Definition self {L} : M L WebScraper := λ l, Self (λ s, Ret (Ok s, l)).
Definition assign {L} (u : WebScraper → WebScraper) : M L unit :=
  λ l, Assign u (Ret (Ok tt, l)).
Definition gets {L A} (f : L → A) : M L A := λ l, Ret (Ok (f l), l).
Definition modify {L} (f : L → L) : M L unit := λ l, Ret (Ok tt, f l).

(** Running a body from its initial locals, and calling a function. *)
Definition body {L A} (init : L) (m : M L A) : fn A :=
  proc_bind (m init) (λ '(o, _), Ret o).
Definition invoke {L A} (f : fn A) : M L A :=
  λ l, proc_bind f (λ o, Ret (o, l)).

(** ** Python values *)

(** Truthiness of an optional string: [None] and [''] are falsy. *)
Definition truthy_str (o : option string) : bool :=
  match o with
  | Some s => negb (String.eqb s EmptyString)
  | None => false
  end.

(** Truthiness of an optional object. *)
Definition truthy {A} (o : option A) : bool :=
  match o with Some _ => true | None => false end.

(** The metadata dict: a value is a string, or [None] when the engine
    returned [None] for the attribute that was stored. *)
Abbreviation metadata := (gmap string (option string)).

Inductive pyval : Type :=
| PNone
| PStr (s : string)
| PInt (z : Z)
| PBool (b : bool)
| PDict (m : metadata).

Abbreviation dict := (gmap string pyval).

Definition AttributeError (what attr : string) : exn :=
  "'" +:+ what +:+ "' object has no attribute '" +:+ attr +:+ "'".

(** ** WebScraper methods *)

(** The double-quote character, for selectors that contain one. *)
Definition dq : string := String (Ascii.ascii_of_nat 34) EmptyString.

(** The selector [link[rel="canonical"]]. *)
Definition canonical_selector : string := "link[rel=" +:+ dq +:+ "canonical" +:+ dq +:+ "]".

Definition user_agent : string :=
  "Mozilla/5.0 (Macintosh; Intel Mac OS X 10_15_7) AppleWebKit/537.36".

(** [WebScraper._initialize_browser] *)
Definition _initialize_browser : fn unit :=
  body tt (
    pw ← await PlaywrightStart;
    assign (set_playwright (Some pw));;
    s ← self;
    b ← match playwright s with
        | Some p => await (ChromiumLaunch p (headless s))
        | None => raise (AttributeError "WebScraper" "playwright")
        end;
    assign (set_browser (Some b));;
    s ← self;
    c ← match browser s with
        | Some b => await (NewContext b 1920 1080 user_agent)
        | None => raise (AttributeError "NoneType" "new_context")
        end;
    assign (set_context (Some c))).

(** [WebScraper.__aenter__]; the returned [self] is the object itself. *)
Definition __aenter__ : fn unit :=
  body tt (invoke _initialize_browser).

(** [WebScraper.close] *)
Definition close : fn unit :=
  body tt (
    try_except
      (s ← self;
       match context s with
       | Some c => await (ContextClose c)
       | None => ret tt
       end)
      (λ _, ret tt);;
    try_except
      (s ← self;
       match browser s with
       | Some b => await (BrowserClose b)
       | None => ret tt
       end)
      (λ _, ret tt);;
    try_except
      (s ← self;
       match playwright s with
       | Some p => await (PlaywrightStop p)
       | None => ret tt
       end)
      (λ _, ret tt)).

(** [WebScraper.__aexit__]: closes and returns [False] (no suppression). *)
Definition __aexit__ : fn bool :=
  body tt (invoke close;; ret false).

(** The [for meta in meta_tags] loop of [_extract_metadata]. *)
Fixpoint for_meta_tags (meta_tags : list handle) : M metadata unit :=
  match meta_tags with
  | [] => ret tt
  | meta :: rest =>
      name ← await (GetAttribute meta "name");
      property_attr ← await (GetAttribute meta "property");
      content ← await (GetAttribute meta "content");
      (if truthy_str name && truthy_str content
       then modify (<[default EmptyString name := content]>)
       else if truthy_str property_attr && truthy_str content
       then modify (<[default EmptyString property_attr := content]>)
       else ret tt);;
      for_meta_tags rest
  end.

(** The [try] block of [_extract_metadata]. *)
Definition extract_try (page : handle) : M metadata unit :=
  meta_tags ← await (QuerySelectorAll page "meta");
  for_meta_tags meta_tags;;
  canonical ← await (QuerySelector page canonical_selector);
  match canonical with
  | Some el => href ← await (GetAttribute el "href");
               modify (<["canonical" := href]>)
  | None => ret tt
  end;;
  html_element ← await (QuerySelector page "html");
  match html_element with
  | Some el => lang ← await (GetAttribute el "lang");
               if truthy_str lang then modify (<["language" := lang]>) else ret tt
  | None => ret tt
  end.

(** [WebScraper._extract_metadata] *)
Definition _extract_metadata (page : handle) : fn metadata :=
  body (∅ : metadata) (
    try_except (extract_try page)
      (λ e, modify (<["extraction_error" := Some e]>));;
    gets id).

(** The locals of [scrape]: [page] and the [result] dict under construction. *)
Record scrape_locals := {
  page : option handle;
  result : dict
}.

Definition set_page (p : option handle) : M scrape_locals unit :=
  modify (λ l, {| page := p; result := result l |}).

(** [result[k] = v] *)
Definition set_item (k : string) (v : pyval) : M scrape_locals unit :=
  modify (λ l, {| page := page l; result := <[k := v]> (result l) |}).

(** The dict literal that [scrape] starts from. *)
Definition initial_result (url timestamp : string) : dict :=
  <["url" := PStr url]> (
  <["html" := PNone]> (
  <["title" := PNone]> (
  <["meta" := PDict ∅]> (
  <["status_code" := PNone]> (
  <["timestamp" := PStr timestamp]> (
  <["success" := PBool false]> (
  <["error" := PNone]> ∅))))))).

(** The [try] block of [scrape]. *)
Definition scrape_try (url : string) (wait_for_selector : option string)
  : M scrape_locals unit :=
  s ← self;
  pg ← match context s with
       | Some c => await (NewPage c)
       | None => raise (AttributeError "NoneType" "new_page")
       end;
  set_page (Some pg);;
  s ← self;
  await (SetDefaultTimeout pg (timeout s));;
  response ← await (Goto pg url "networkidle");
  match response with
  | Some r => set_item "status_code" (PInt (status r));;
              final ← await (PageUrl pg);
              set_item "url" (PStr final)
  | None => ret tt
  end;;
  (if truthy_str wait_for_selector
   then await (WaitForSelector pg (default EmptyString wait_for_selector))
   else ret tt);;
  html ← await (Content pg);
  set_item "html" (PStr html);;
  title ← await (Title pg);
  set_item "title" (PStr title);;
  meta ← invoke (_extract_metadata pg);
  set_item "meta" (PDict meta);;
  set_item "success" (PBool true).

(** The [except Exception as e] handler of [scrape]. *)
Definition scrape_except (e : exn) : M scrape_locals unit :=
  set_item "error" (PStr e);;
  set_item "success" (PBool false).

(** The [finally] block of [scrape]. *)
Definition scrape_finally : M scrape_locals unit :=
  pg ← gets page;
  match pg with
  | Some p => try_except (await (PageClose p)) (λ _, ret tt)
  | None => ret tt
  end.

(** [WebScraper.scrape] *)
Definition scrape (url : string) (wait_for_selector : option string) : fn dict :=
  body {| page := None; result := ∅ |} (
    s ← self;
    (if negb (truthy (browser s)) || negb (truthy (context s))
     then invoke _initialize_browser
     else ret tt);;
    set_page None;;
    timestamp ← now;
    modify (λ l, {| page := page l; result := initial_result url timestamp |});;
    try_finally
      (try_except (scrape_try url wait_for_selector) scrape_except)
      scrape_finally;;
    gets result).

(** [async with scraper: block]: [__aenter__], then the block, then
    [__aexit__] on every exit of the block; [__aexit__] returns [False], so
    an exception of the block is re-raised after the cleanup. *)
Definition async_with {A} (block : fn A) : fn A :=
  body tt (
    invoke __aenter__;;
    try_finally (invoke block) (invoke __aexit__;; ret tt)).

(** ** Sequential execution against an engine *)

Fixpoint run {A} (eng : Engine) (p : proc A) (s : WebScraper) (h : trace)
  : A * WebScraper * trace :=
  match p with
  | Ret a => (a, s, h)
  | Call c k => let o := respond eng h c in run eng (k o) s (h ++ [Ev c o])
  | Now k => let t := utcnow eng h in run eng (k t) s (h ++ [Tick t])
  | Self k => run eng (k s) s h
  | Assign u k => run eng k (u s) h
  end.

(** [scrape_url]: a fresh [WebScraper(headless=headless)] (default timeout
    30000), used as a context manager around one [scrape]. *)
Definition scrape_url (eng : Engine) (url : string) (headless : bool)
    (wait_for_selector : option string) (h : trace) : outcome dict * trace :=
  let '(o, _, h') :=
    run eng (async_with (scrape url wait_for_selector)) (__init__ headless 30000) h in
  (o, h').

(** The number of assignments to fields of the scraper object that a run
    performs. *)
Fixpoint assignments {A} (eng : Engine) (p : proc A) (s : WebScraper) (h : trace)
  : nat :=
  match p with
  | Ret _ => 0
  | Call c k => let o := respond eng h c in assignments eng (k o) s (h ++ [Ev c o])
  | Now k => let t := utcnow eng h in assignments eng (k t) s (h ++ [Tick t])
  | Self k => assignments eng (k s) s h
  | Assign u k => S (assignments eng k (u s) h)
  end.

(** ** Executions of a coroutine *)

(** [exec p s tr a s']: started on an object in state [s], and observing
    exactly the events [tr], the coroutine [p] returns [a] and leaves the
    object in state [s'] (nobody else assigns the object meanwhile). *)
Inductive exec {A} : proc A → WebScraper → trace → A → WebScraper → Prop :=
| exec_Ret a s :
    exec (Ret a) s [] a s
| exec_Call c k o s tr a s' :
    exec (k o) s tr a s' →
    exec (Call c k) s (Ev c o :: tr) a s'
| exec_Now k t s tr a s' :
    exec (k t) s tr a s' →
    exec (Now k) s (Tick t :: tr) a s'
| exec_Self k s tr a s' :
    exec (k s) s tr a s' →
    exec (Self k) s tr a s'
| exec_Assign u k s tr a s' :
    exec k (u s) tr a s' →
    exec (Assign u k) s tr a s'.

(** ** Observations on a trace *)

(** The engine calls of a trace, in order. *)
Definition call_of (e : event) : option call :=
  match e with
  | Ev c _ => Some c
  | Tick _ => None
  end.

Definition calls (tr : trace) : list call := omap call_of tr.

(** The engine failures along a trace: which call raised what, in order. *)
Definition failure_of (e : event) : option (call * exn) :=
  match e with
  | Ev c (Raise e) => Some (c, e)
  | _ => None
  end.

Definition failures (tr : trace) : list (call * exn) := omap failure_of tr.

(** The page URLs that were read ([page.url]), the navigation responses
    that were received, and the titles that were read, along a trace. *)
Definition page_url_of (e : event) : option string :=
  match e with
  | Ev c o =>
      match c return outcome (payload c) → option string with
      | PageUrl _ => λ o, match o with Ok u => Some u | Raise _ => None end
      | _ => λ _, None
      end o
  | Tick _ => None
  end.

Definition response_of (e : event) : option Response :=
  match e with
  | Ev c o =>
      match c return outcome (payload c) → option Response with
      | Goto _ _ _ => λ o, match o with Ok (Some r) => Some r | _ => None end
      | _ => λ _, None
      end o
  | Tick _ => None
  end.

Definition title_of (e : event) : option string :=
  match e with
  | Ev c o =>
      match c return outcome (payload c) → option string with
      | Title _ => λ o, match o with Ok t => Some t | Raise _ => None end
      | _ => λ _, None
      end o
  | Tick _ => None
  end.

Definition page_urls (tr : trace) : list string := omap page_url_of tr.
Definition responses (tr : trace) : list Response := omap response_of tr.
Definition titles (tr : trace) : list string := omap title_of tr.

(** ** The batch coordinator *)

(** A coroutine [scrape_with_limit(url)] submitted to [asyncio.gather]: it
    waits for the semaphore, then runs [scraper.scrape(url)] while holding
    it, then releases it and is done.  A task remembers the events it has
    observed itself. *)
Inductive task : Type :=
| Queued (url : string)
| Running (p : fn dict) (tr : trace)
| Finished (o : outcome dict) (tr : trace).

(** The shared state of a batch: the one scraper object, everything the
    engine has seen, the semaphore's counter, and the tasks in the order of
    the input list. *)
Record batch := {
  scraper : WebScraper;
  history : trace;
  sem_value : Z;
  tasks : list task
}.

Definition is_running (t : task) : bool :=
  match t with
  | Running _ _ => true
  | _ => false
  end.

(** The number of operations that hold the semaphore. *)
Definition active (ts : list task) : nat := length (List.filter is_running ts).

(** One step of the event loop: some task acquires the semaphore, or a task
    that holds it advances to its next suspension point, or releases. *)
Inductive step (eng : Engine) : batch → batch → Prop :=
| step_acquire st i url :
    tasks st !! i = Some (Queued url) →
    0 < sem_value st →
    step eng st
      {| scraper := scraper st; history := history st;
         sem_value := sem_value st - 1;
         tasks := <[i := Running (scrape url None) []]> (tasks st) |}
| step_call st i c k tr :
    tasks st !! i = Some (Running (Call c k) tr) →
    step eng st
      {| scraper := scraper st;
         history := history st ++ [Ev c (respond eng (history st) c)];
         sem_value := sem_value st;
         tasks := <[i := Running (k (respond eng (history st) c))
                           (tr ++ [Ev c (respond eng (history st) c)])]> (tasks st) |}
| step_now st i k tr :
    tasks st !! i = Some (Running (Now k) tr) →
    step eng st
      {| scraper := scraper st;
         history := history st ++ [Tick (utcnow eng (history st))];
         sem_value := sem_value st;
         tasks := <[i := Running (k (utcnow eng (history st)))
                           (tr ++ [Tick (utcnow eng (history st))])]> (tasks st) |}
| step_self st i k tr :
    tasks st !! i = Some (Running (Self k) tr) →
    step eng st
      {| scraper := scraper st; history := history st;
         sem_value := sem_value st;
         tasks := <[i := Running (k (scraper st)) tr]> (tasks st) |}
| step_assign st i u k tr :
    tasks st !! i = Some (Running (Assign u k) tr) →
    step eng st
      {| scraper := u (scraper st); history := history st;
         sem_value := sem_value st;
         tasks := <[i := Running k tr]> (tasks st) |}
| step_release st i o tr :
    tasks st !! i = Some (Running (Ret o) tr) →
    step eng st
      {| scraper := scraper st; history := history st;
         sem_value := sem_value st + 1;
         tasks := <[i := Finished o tr]> (tasks st) |}.

(** [tasks = [scrape_with_limit(url) for url in urls]] under
    [asyncio.Semaphore(max_concurrent)]. *)
Definition start (s : WebScraper) (h : trace) (max_concurrent : Z)
    (urls : list string) : batch :=
  {| scraper := s; history := h; sem_value := max_concurrent;
     tasks := Queued <$> urls |}.

(** What [asyncio.gather] returns once every task is done and none raised:
    the results in the order of the tasks. *)
Fixpoint gathered (ts : list task) : option (list dict) :=
  match ts with
  | [] => Some []
  | Finished (Ok r) _ :: ts' => (r ::.) <$> gathered ts'
  | _ => None
  end.

(** [scrape_urls_batch]: the outcomes the call can have, over all schedules. *)
Inductive scrape_urls_batch (eng : Engine) (urls : list string)
    (headless : bool) (max_concurrent : Z) (h : trace)
  : outcome (list dict) → Prop :=
| batch_enter_raises e s1 h1 :
    run eng __aenter__ (__init__ headless 30000) h = (Raise e, s1, h1) →
    scrape_urls_batch eng urls headless max_concurrent h (Raise e)
| batch_semaphore_raises s1 h1 :
    run eng __aenter__ (__init__ headless 30000) h = (Ok tt, s1, h1) →
    max_concurrent < 0 →
    scrape_urls_batch eng urls headless max_concurrent h
      (Raise "Semaphore initial value must be >= 0")
| batch_task_raises s1 h1 st i e tr :
    run eng __aenter__ (__init__ headless 30000) h = (Ok tt, s1, h1) →
    0 ≤ max_concurrent →
    rtc (step eng) (start s1 h1 max_concurrent urls) st →
    tasks st !! i = Some (Finished (Raise e) tr) →
    scrape_urls_batch eng urls headless max_concurrent h (Raise e)
| batch_returns s1 h1 st rs :
    run eng __aenter__ (__init__ headless 30000) h = (Ok tt, s1, h1) →
    0 ≤ max_concurrent →
    rtc (step eng) (start s1 h1 max_concurrent urls) st →
    gathered (tasks st) = Some rs →
    scrape_urls_batch eng urls headless max_concurrent h
      match (run eng __aexit__ (scraper st) (history st)).1.1 with
      | Ok _ => Ok rs
      | Raise e => Raise e
      end.

(** ** A program logic for coroutines *)

(** [wp w p s tr Q]: every execution of [p] from object state [s], after the
    events [tr], ends in a result, object state and trace satisfying [Q].
    With [w = false] the coroutine moreover never assigns a field of the
    object on the way. *)
Fixpoint wp {A} (w : bool) (p : proc A) (s : WebScraper) (tr : trace)
    (Q : A → WebScraper → trace → Prop) : Prop :=
  match p with
  | Ret a => Q a s tr
  | Call c k => ∀ o, wp w (k o) s (tr ++ [Ev c o]) Q
  | Now k => ∀ t, wp w (k t) s (tr ++ [Tick t]) Q
  | Self k => wp w (k s) s tr Q
  | Assign u k => if w then wp w k (u s) tr Q else False
  end.

(** The same for a function body, which also carries its locals. *)
Definition mwp {L A} (w : bool) (m : M L A) (l : L) (s : WebScraper) (tr : trace)
    (Q : outcome A → L → WebScraper → trace → Prop) : Prop :=
  wp w (m l) s tr (λ x s' tr', Q x.1 x.2 s' tr').

(** ** Vocabulary of the statements *)

(** The session is open: both [self.browser] and [self.context] are set
    (the negation of the guard of [scrape]'s lazy initialisation). *)
Definition session_open (s : WebScraper) : bool :=
  truthy (browser s) && truthy (context s).

(** The keys of a result dict. *)
Definition result_keys : gset string :=
  {[ "url"; "html"; "title"; "meta"; "status_code"; "timestamp"; "success"; "error" ]}.

(** The dict of an outcome that is a dict. *)
Definition result_of (o : outcome dict) : dict :=
  match o with
  | Ok r => r
  | Raise _ => ∅
  end.

(** The meta mapping of a result. *)
Definition meta_of (r : dict) : metadata :=
  match r !! "meta" with
  | Some (PDict m) => m
  | _ => ∅
  end.

(** The calls by which a session is opened. *)
Definition open_call (c : call) : bool :=
  match c with
  | PlaywrightStart | ChromiumLaunch _ _ | NewContext _ _ _ _ => true
  | _ => false
  end.

(** The engine calls of [scrape]'s own [try] block, outside the extractor. *)
Definition scrape_call (c : call) : bool :=
  match c with
  | NewPage _ | SetDefaultTimeout _ _ | Goto _ _ _ | PageUrl _
  | WaitForSelector _ _ | Content _ | Title _ => true
  | _ => false
  end.

(** The DOM queries that [_extract_metadata] makes. *)
Definition extraction_call (c : call) : bool :=
  match c with
  | QuerySelectorAll _ _ | QuerySelector _ _ | GetAttribute _ _ => true
  | _ => false
  end.

(** The calls [close] makes on an object in state [s]. *)
Definition close_calls (s : WebScraper) : list call :=
  option_list (ContextClose <$> context s) ++
  option_list (BrowserClose <$> browser s) ++
  option_list (PlaywrightStop <$> playwright s).



(** Every entry holds a string, except that [canonical] may hold [None]. *)
Definition strings_but_canonical (m : metadata) : Prop :=
  ∀ k v, m !! k = Some v → k = "canonical" ∨ is_Some v.

(** What one run of the [for] loop leaves: it only queried the DOM; it ended
    by an exception exactly when one of its queries raised, and with that
    exception. *)
Definition loop_post (m : metadata) (o : outcome unit) (m' : metadata)
    (tr' : trace) : Prop :=
  Forall (λ c, extraction_call c = true) (calls tr') ∧
  match o with
  | Ok _ => failures tr' = []
  | Raise e => ∃ c, failures tr' = [(c, e)]
  end ∧
  (strings_but_canonical m → strings_but_canonical m').

(** What [_extract_metadata] returns: it only queried the DOM, at most one
    query raised, and a raised exception is recorded under
    [extraction_error]. *)
Definition extract_post (m : metadata) (tr' : trace) : Prop :=
  Forall (λ c, extraction_call c = true) (calls tr') ∧
  (failures tr' = [] ∨
   ∃ c e, failures tr' = [(c, e)] ∧ m !! "extraction_error" = Some (Some e)) ∧
  strings_but_canonical m.

(** ** Orders and invariants of the batch *)

Definition weight (t : task) : nat := if is_running t then 1%nat else 0%nat.

(** A task moves forward: it starts, advances to a continuation, or ends. *)
Definition task_lt (t' t : task) : Prop :=
  match t with
  | Queued _ => ∃ p tr, t' = Running p tr
  | Running p tr =>
      match p with
      | Ret o => ∃ tr', t' = Finished o tr'
      | Call c k => ∃ o tr', t' = Running (k o) tr'
      | Now k => ∃ x tr', t' = Running (k x) tr'
      | Self k => ∃ s tr', t' = Running (k s) tr'
      | Assign u k => ∃ tr', t' = Running k tr'
      end
  | Finished _ _ => False
  end.

(** One element of a list moves down in [R], the others stay. *)
Inductive list_lt {A} (R : A → A → Prop) : list A → list A → Prop :=
| list_lt_here x y l : R y x → list_lt R (y :: l) (x :: l)
| list_lt_there x l l' : list_lt R l' l → list_lt R (x :: l') (x :: l).

(** What is known of the task at position [i] of a batch on the open
    session [s1], submitted for [url]: a running task has not assigned the
    scraper and will not, and what it has observed so far, continued by any
    execution of what it has left to do, is an execution of
    [scrape(url)]. *)
Definition task_ok (s1 : WebScraper) (url : string) (t : task) : Prop :=
  match t with
  | Queued u => u = url
  | Running p tr =>
      wp false p s1 tr (λ _ _ _, True) ∧
      ∀ tr' o s', exec p s1 tr' o s' → exec (scrape url None) s1 (tr ++ tr') o s'
  | Finished o tr => exec (scrape url None) s1 tr o s1
  end.

Definition batch_inv (s1 : WebScraper) (max_concurrent : Z) (urls : list string)
    (st : batch) : Prop :=
  scraper st = s1 ∧
  0 ≤ sem_value st ∧
  sem_value st = max_concurrent - Z.of_nat (active (tasks st)) ∧
  Forall2 (task_ok s1) urls (tasks st).

(** Whether the page that a task opened is still open: a page is open from
    a [new_page] that returned until [close] is called on it. *)
Definition page_open_after (b : bool) (e : event) : bool :=
  match e with
  | Ev (NewPage _) (Ok _) => true
  | Ev (PageClose _) _ => false
  | _ => b
  end.

Definition has_open_page (tr : trace) : bool := foldl page_open_after false tr.

Definition holds_page (t : task) : bool :=
  match t with
  | Queued _ => false
  | Running _ tr | Finished _ tr => has_open_page tr
  end.

(** The number of tasks that hold an open page. *)
Definition pages_open (ts : list task) : nat := length (List.filter holds_page ts).

(** ** Concrete engines *)

(** A page that loads: status 200, two meta tags, a canonical link and a
    language attribute. *)
Definition example_page (c : call) : outcome (payload c) :=
  match c with
  | PlaywrightStart => Ok 1%nat
  | ChromiumLaunch _ _ => Ok 2%nat
  | NewContext _ _ _ _ => Ok 3%nat
  | NewPage _ => Ok 4%nat
  | SetDefaultTimeout _ _ => Ok tt
  | Goto _ _ _ => Ok (Some {| status := 200 |})
  | PageUrl _ => Ok "https://example.com/"
  | WaitForSelector _ _ => Ok tt
  | Content _ => Ok "<html lang='en'>...</html>"
  | Title _ => Ok "Example Domain"
  | QuerySelectorAll _ _ => Ok [100%nat; 101%nat]
  | QuerySelector _ sel =>
      if String.eqb sel "html" then Ok (Some 103%nat) else Ok (Some 102%nat)
  | GetAttribute el name =>
      match el, name with
      | 100%nat, "name" => Ok (Some "description")
      | 100%nat, "content" => Ok (Some "An example page")
      | 101%nat, "property" => Ok (Some "og:title")
      | 101%nat, "content" => Ok (Some "Example")
      | 102%nat, "href" => Ok (Some "https://example.com/")
      | 103%nat, "lang" => Ok (Some "en")
      | _, _ => Ok None
      end
  | PageClose _ | ContextClose _ | BrowserClose _ | PlaywrightStop _ => Ok tt
  end.

Definition engine_of (f : ∀ c : call, outcome (payload c)) : Engine :=
  {| respond := λ _, f; utcnow := λ _, "2024-01-01T00:00:00" |}.

Definition example_engine : Engine := engine_of example_page.

(** The same page, but reading the title fails. *)
Definition title_fails : Engine :=
  engine_of (λ c,
    match c return outcome (payload c) with
    | Title _ => Raise "Page.title: Target closed"
    | c => example_page c
    end).

(** A redirecting page on which the awaited selector never appears. *)
Definition selector_times_out : Engine :=
  engine_of (λ c,
    match c return outcome (payload c) with
    | PageUrl _ => Ok "https://www.example.com/home"
    | WaitForSelector _ _ => Raise "Timeout 30000ms exceeded."
    | c => example_page c
    end).

(** A page whose canonical link has no [href] attribute. *)
Definition canonical_without_href : Engine :=
  engine_of (λ c,
    match c return outcome (payload c) with
    | GetAttribute 102%nat _ => Ok None
    | c => example_page c
    end).

(** A page with a meta tag named [extraction_error], on which the query
    for the canonical link fails. *)
Definition meta_named_extraction_error : Engine :=
  engine_of (λ c,
    match c return outcome (payload c) with
    | QuerySelectorAll _ _ => Ok [100%nat]
    | GetAttribute 100%nat name =>
        if String.eqb name "name" then Ok (Some "extraction_error")
        else if String.eqb name "content" then Ok (Some "from the page")
        else Ok None
    | QuerySelector _ _ => Raise "Execution context was destroyed"
    | c => example_page c
    end).

(** An engine that hands out a new handle for every object it creates. *)
Definition fresh_handles : Engine :=
  {| respond := λ h c,
       match c return outcome (payload c) with
       | PlaywrightStart => Ok (10 + length h)%nat
       | ChromiumLaunch _ _ => Ok (10 + length h)%nat
       | NewContext _ _ _ _ => Ok (10 + length h)%nat
       | NewPage _ => Ok (10 + length h)%nat
       | c => example_page c
       end;
     utcnow := λ _, "2024-01-01T00:00:00" |}.

(** An engine whose browser cannot be launched. *)
Definition launch_fails : Engine :=
  engine_of (λ c,
    match c return outcome (payload c) with
    | ChromiumLaunch _ _ => Raise "Executable doesn't exist"
    | c => example_page c
    end).

(** An open session, as [__aenter__] leaves it on [example_engine]. *)
Definition open_scraper : WebScraper :=
  {| headless := true; timeout := 30000;
     browser := Some 2%nat; context := Some 3%nat; playwright := Some 1%nat |}.

(** A batch of three URLs (one of them twice) under two permits, at the
    moment the first two tasks hold the semaphore and the third waits. *)
Definition example_urls : list string :=
  ["https://example.com"; "https://example.org"; "https://example.com"].

Definition two_active : batch :=
  {| scraper := open_scraper; history := []; sem_value := 0;
     tasks := [Running (scrape "https://example.com" None) [];
               Running (scrape "https://example.org" None) [];
               Queued "https://example.com"] |}.

(** ** Further vocabulary: the session's calls *)

(** The calls by which a session is released. *)
Definition close_call (c : call) : bool :=
  match c with
  | ContextClose _ | BrowserClose _ | PlaywrightStop _ => true
  | _ => false
  end.

(** The calls that open or release a session. *)
Definition session_call (c : call) : bool := open_call c || close_call c.

(** ** Further vocabulary: what a trace shows *)

(** The clock readings along a trace. *)
Definition tick_of (e : event) : option string :=
  match e with
  | Tick t => Some t
  | Ev _ _ => None
  end.

Definition ticks (tr : trace) : list string := omap tick_of tr.

(** The pages that were opened ([new_page] returned them), the contents
    that were read, and, among the calls, the pages on which [close] was
    called, the selectors that were awaited, the navigations and the timeout
    settings. *)
Definition opened_page_of (e : event) : option handle :=
  match e with
  | Ev c o =>
      match c return outcome (payload c) → option handle with
      | NewPage _ => λ o, match o with Ok pg => Some pg | Raise _ => None end
      | _ => λ _, None
      end o
  | Tick _ => None
  end.

Definition content_of (e : event) : option string :=
  match e with
  | Ev c o =>
      match c return outcome (payload c) → option string with
      | Content _ => λ o, match o with Ok html => Some html | Raise _ => None end
      | _ => λ _, None
      end o
  | Tick _ => None
  end.

Definition closed_page_of (c : call) : option handle :=
  match c with PageClose pg => Some pg | _ => None end.

Definition wait_of (c : call) : option string :=
  match c with WaitForSelector _ selector => Some selector | _ => None end.

Definition navigation_of (c : call) : option (handle * string * string) :=
  match c with Goto pg url wait_until => Some (pg, url, wait_until) | _ => None end.

Definition timeout_of (c : call) : option (handle * Z) :=
  match c with SetDefaultTimeout pg t => Some (pg, t) | _ => None end.

Definition opened_pages (tr : trace) : list handle := omap opened_page_of tr.
Definition contents (tr : trace) : list string := omap content_of tr.
Definition closed_pages (tr : trace) : list handle := omap closed_page_of (calls tr).
Definition waits (tr : trace) : list string := omap wait_of (calls tr).
Definition navigations (tr : trace) : list (handle * string * string) :=
  omap navigation_of (calls tr).
Definition timeouts (tr : trace) : list (handle * Z) := omap timeout_of (calls tr).

(** What the trace of the extractor looks like: DOM queries only, no clock
    reading, and if a query raised it is the last one. *)
Definition extraction_trace (tr : trace) : Prop :=
  Forall (λ c, extraction_call c = true) (calls tr) ∧
  ticks tr = [] ∧
  (failures tr = [] ∨
   ∃ c e, failures tr = [(c, e)] ∧ last (calls tr) = Some c).

(** ** Further vocabulary: where the metadata comes from *)

(** The entry [k : v] was read off the element [el]: [k] is what its [name]
    or its [property] attribute returned, and [v] what its [content]
    attribute returned. *)
Definition read_off_tag (tr : trace) (el : handle) (k : string)
    (v : option string) : Prop :=
  (Ev (GetAttribute el "name") (Ok (Some k)) ∈ tr ∨
   Ev (GetAttribute el "property") (Ok (Some k)) ∈ tr) ∧
  Ev (GetAttribute el "content") (Ok v) ∈ tr.

(** The four sources of an entry of the metadata of the page [pg]: a meta
    tag, the canonical link, the [lang] attribute of the document element,
    or the exception that ended the extraction. *)
Definition entry_source (pg : handle) (tr : trace) (k : string)
    (v : option string) : Prop :=
  (∃ tags el, Ev (QuerySelectorAll pg "meta") (Ok tags) ∈ tr ∧ el ∈ tags ∧
              read_off_tag tr el k v) ∨
  (k = "canonical" ∧
   ∃ el, Ev (QuerySelector pg canonical_selector) (Ok (Some el)) ∈ tr ∧
         Ev (GetAttribute el "href") (Ok v) ∈ tr) ∨
  (k = "language" ∧
   ∃ el, Ev (QuerySelector pg "html") (Ok (Some el)) ∈ tr ∧
         Ev (GetAttribute el "lang") (Ok v) ∈ tr) ∨
  (k = "extraction_error" ∧ ∃ c e, v = Some e ∧ (c, e) ∈ failures tr).

(** The events are the answers of a page that does not change: every call
    got the answer that [page] gives to it. *)
Definition answers (page : ∀ c : call, outcome (payload c)) (tr : trace) : Prop :=
  Forall (λ ev, match ev with Ev c o => o = page c | Tick _ => True end) tr.

(** ** Further vocabulary: what was read off the page *)

(** The attributes that were read ([get_attribute] returned), in order:
    the element, the attribute's name, and the value. *)
Definition attribute_of (e : event) : option (handle * string * option string) :=
  match e with
  | Ev c o =>
      match c return outcome (payload c) → option (handle * string * option string) with
      | GetAttribute el name =>
          λ o, match o with Ok v => Some (el, name, v) | Raise _ => None end
      | _ => λ _, None
      end o
  | Tick _ => None
  end.

Definition attributes (tr : trace) : list (handle * string * option string) :=
  omap attribute_of tr.

(** The assignment that the loop of [_extract_metadata] makes for a tag
    whose three attributes it has read: [metadata[name] = content] if both
    are truthy, else [metadata[property_attr] = content] if both are, else
    none. *)
Definition tag_entry (name property_attr content : option string)
  : list (string * option string) :=
  if truthy_str name && truthy_str content
  then [(default EmptyString name, content)]
  else if truthy_str property_attr && truthy_str content
  then [(default EmptyString property_attr, content)]
  else [].

(** The assignments of the loop, read off the attributes that were read: one
    [tag_entry] for every element whose [name], [property] and [content]
    were read one after the other. *)
Fixpoint tag_entries (reads : list (handle * string * option string))
  : list (string * option string) :=
  match reads with
  | [] => []
  | (el1, a1, name) :: tl =>
      match tl with
      | (el2, a2, property_attr) :: (el3, a3, content) :: rest =>
          if Nat.eqb el1 el2 && Nat.eqb el2 el3 &&
             String.eqb a1 "name" && String.eqb a2 "property" &&
             String.eqb a3 "content"
          then tag_entry name property_attr content ++ tag_entries rest
          else tag_entries tl
      | _ => []
      end
  end.

(** The assignments after the loop: [canonical] gets whatever the [href] of
    the link returned, [language] the [lang] of the document element if it
    is truthy. *)
Definition link_entry (read : handle * string * option string)
  : list (string * option string) :=
  if String.eqb read.1.2 "href" then [("canonical", read.2)]
  else if String.eqb read.1.2 "lang" && truthy_str read.2
  then [("language", read.2)]
  else [].

Definition entries_read (tr : trace) : list (string * option string) :=
  tag_entries (attributes tr) ++ (attributes tr ≫= link_entry).

(** The dict that results from the assignments, made in order on an empty
    dict: a later assignment to a key replaces an earlier one. *)
Definition assign_all (entries : list (string * option string)) (m : metadata)
  : metadata :=
  foldl (λ m kv, <[kv.1 := kv.2]> m) m entries.

Definition metadata_read (tr : trace) : metadata :=
  assign_all (entries_read tr) ∅.

(** What [_extract_metadata] returns after the events [tr]: the dict of
    what it read, with the message of the exception, if one of its queries
    raised, under [extraction_error]. *)
Definition metadata_after (tr : trace) : metadata :=
  match failures tr with
  | [] => metadata_read tr
  | (_, e) :: _ => <["extraction_error" := Some e]> (metadata_read tr)
  end.

(** The page of [example_page], on which the queries for the canonical
    link and the document element fail. *)
Definition link_query_fails : Engine :=
  engine_of (λ c,
    match c return outcome (payload c) with
    | QuerySelector _ _ => Raise "Execution context was destroyed"
    | c => example_page c
    end).

(** ** Further vocabulary: the batch and the engine *)

(** The events [tr] are the engine's answers: each call got what the
    engine answers to it after the history so far, which starts as [h]. *)
Fixpoint answered (eng : Engine) (h : trace) (tr : trace) : Prop :=
  match tr with
  | [] => True
  | ev :: rest =>
      match ev with
      | Ev c o => o = respond eng h c
      | Tick t => t = utcnow eng h
      end ∧ answered eng (h ++ [ev]) rest
  end.

(** What a task has observed. *)
Definition observed (t : task) : trace :=
  match t with
  | Queued _ => []
  | Running _ tr | Finished _ tr => tr
  end.

(** [rs] is what the batch returns from the state [st], reached from the
    session [s1] opened after the events [h1]: it has one result for each
    URL, and the result at position [i] is the dict that the task at
    position [i] returned, by an execution of [scrape(urls[i])] whose events
    are events of the batch, each one the engine's answer at its time. *)
Definition results_in_order (eng : Engine) (s1 : WebScraper) (h1 : trace)
    (urls : list string) (st : batch) (rs : list dict) : Prop :=
  length rs = length urls ∧
  ∃ hist, history st = h1 ++ hist ∧ answered eng h1 hist ∧
    ∀ i url, urls !! i = Some url →
      ∃ r tr, rs !! i = Some r ∧
        tasks st !! i = Some (Finished (Ok r) tr) ∧
        tr `sublist_of` hist ∧
        exec (scrape url None) s1 tr (Ok r) s1.

(** One schedule of the event loop: the task at position [i], if it waits
    and a permit is free, acquires the permit, runs its [scrape] to the end
    without another task in between, and releases the permit. *)
Definition run_task (eng : Engine) (st : batch) (i : nat) : batch :=
  match tasks st !! i with
  | Some (Queued url) =>
      if bool_decide (0 < sem_value st) then
        let res := run eng (scrape url None) (scraper st) (history st) in
        {| scraper := res.1.2; history := res.2;
           sem_value := sem_value st - 1 + 1;
           tasks := <[i := Finished res.1.1 (drop (length (history st)) res.2)]>
                      (tasks st) |}
      else st
  | _ => st
  end.

(** A site on which one of the URLs of [example_urls] is not found. *)
Definition org_not_found : Engine :=
  engine_of (λ c,
    match c return outcome (payload c) with
    | Goto _ url _ =>
        if String.eqb url "https://example.org"
        then Ok (Some {| status := 404 |})
        else Ok (Some {| status := 200 |})
    | c => example_page c
    end).

(** ** Soundness of the logic *)

Section Logic.
Context {A : Type}.
Implicit Types (p : proc A) (s : WebScraper) (tr : trace).

Lemma wp_mono w p s tr (Q Q' : A → WebScraper → trace → Prop) :
  (∀ a s' tr', Q a s' tr' → Q' a s' tr') →
  wp w p s tr Q → wp w p s tr Q'.
Proof.
  intros HQ. revert s tr.
  induction p as [a|c k IH|k IH|k IH|u k IH]; simpl; intros s tr; auto.
  destruct w; auto.
Qed.

Lemma wp_frozen p s tr Q :
  wp false p s tr Q → wp true p s tr (λ a s' tr', s' = s ∧ Q a s' tr').
Proof.
  revert s tr.
  induction p as [a|c k IH|k IH|k IH|u k IH]; simpl; intros s tr; auto.
  intros [].
Qed.

Lemma wp_exec w p s tr0 Q tr a s' :
  wp w p s tr0 Q → exec p s tr a s' → Q a s' (tr0 ++ tr).
Proof.
  intros Hwp Hex. revert tr0 Hwp.
  induction Hex as [a s|c k o s tr a s' _ IH|k t s tr a s' _ IH
                   |k s tr a s' _ IH|u k s tr a s' _ IH];
    simpl; intros tr0 Hwp.
  - by rewrite app_nil_r.
  - rewrite cons_middle, app_assoc. apply IH, Hwp.
  - rewrite cons_middle, app_assoc. apply IH, Hwp.
  - by apply IH.
  - destruct w; [by apply IH | done].
Qed.

Lemma run_exec eng p s h :
  ∃ tr, (run eng p s h).2 = h ++ tr ∧
        exec p s tr (run eng p s h).1.1 (run eng p s h).1.2.
Proof.
  revert s h.
  induction p as [a|c k IH|k IH|k IH|u k IH]; simpl; intros s h.
  - exists []. rewrite app_nil_r. split; [done | constructor].
  - destruct (IH (respond eng h c) s (h ++ [Ev c (respond eng h c)])) as (tr & E & X).
    exists (Ev c (respond eng h c) :: tr). split.
    + by rewrite E, <- app_assoc.
    + by constructor.
  - destruct (IH (utcnow eng h) s (h ++ [Tick (utcnow eng h)])) as (tr & E & X).
    exists (Tick (utcnow eng h) :: tr). split.
    + by rewrite E, <- app_assoc.
    + by constructor.
  - destruct (IH s s h) as (tr & E & X). exists tr. split; [done | by constructor].
  - destruct (IH (u s) h) as (tr & E & X). exists tr. split; [done | by constructor].
Qed.

Lemma wp_run w eng p s h Q :
  wp w p s h Q →
  Q (run eng p s h).1.1 (run eng p s h).1.2 (run eng p s h).2.
Proof.
  intros Hwp. destruct (run_exec eng p s h) as (tr & E & X).
  rewrite E. by eapply wp_exec.
Qed.
End Logic.

Lemma wp_bind {A B} w (p : proc A) (f : A → proc B) s tr Q :
  wp w p s tr (λ a s' tr', wp w (f a) s' tr' Q) →
  wp w (proc_bind p f) s tr Q.
Proof.
  revert s tr.
  induction p as [a|c k IH|k IH|k IH|u k IH]; simpl; intros s tr; auto.
  destruct w; auto.
Qed.

(** ** Rules for function bodies *)

Section Rules.
Context {L : Type} (w : bool).
Implicit Types (l : L) (s : WebScraper) (tr : trace).

Lemma mwp_mono {A} (m : M L A) l s tr (Q Q' : outcome A → L → WebScraper → trace → Prop) :
  (∀ o l' s' tr', Q o l' s' tr' → Q' o l' s' tr') →
  mwp w m l s tr Q → mwp w m l s tr Q'.
Proof. intros HQ. apply wp_mono. intros [o l'] s' tr'. apply HQ. Qed.

Lemma mwp_ret {A} (a : A) l s tr Q :
  Q (Ok a) l s tr → mwp w (mret a) l s tr Q.
Proof. done. Qed.

Lemma mwp_raise {A} e l s tr (Q : outcome A → L → WebScraper → trace → Prop) :
  Q (Raise e) l s tr → mwp w (raise e) l s tr Q.
Proof. done. Qed.

Lemma mwp_bind {A B} (m : M L A) (f : A → M L B) l s tr Q :
  mwp w m l s tr (λ o l' s' tr',
    match o with
    | Ok a => mwp w (f a) l' s' tr' Q
    | Raise e => Q (Raise e) l' s' tr'
    end) →
  mwp w (m ≫= f) l s tr Q.
Proof.
  intros H. apply wp_bind. revert H. apply wp_mono.
  by intros [[a|e] l'] s' tr'.
Qed.

Lemma mwp_try_except {A} (m : M L A) (h : exn → M L A) l s tr Q :
  mwp w m l s tr (λ o l' s' tr',
    match o with
    | Ok a => Q (Ok a) l' s' tr'
    | Raise e => mwp w (h e) l' s' tr' Q
    end) →
  mwp w (try_except m h) l s tr Q.
Proof.
  intros H. apply wp_bind. revert H. apply wp_mono.
  by intros [[a|e] l'] s' tr'.
Qed.

Lemma mwp_try_finally {A} (m : M L A) (fin : M L unit) l s tr Q :
  mwp w m l s tr (λ o l' s' tr',
    mwp w fin l' s' tr' (λ o' l'' s'' tr'',
      match o' with
      | Ok _ => Q o l'' s'' tr''
      | Raise e' => Q (Raise e') l'' s'' tr''
      end)) →
  mwp w (try_finally m fin) l s tr Q.
Proof.
  intros H. apply wp_bind. revert H. apply wp_mono.
  intros [o l'] s' tr' H. apply wp_bind. revert H. apply wp_mono.
  by intros [[[]|e'] l''] s'' tr''.
Qed.

Lemma mwp_await c l s tr Q :
  (∀ o, Q o l s (tr ++ [Ev c o])) → mwp w (await c) l s tr Q.
Proof. done. Qed.

Lemma mwp_now l s tr Q :
  (∀ t, Q (Ok t) l s (tr ++ [Tick t])) → mwp w now l s tr Q.
Proof. done. Qed.

Lemma mwp_self l s tr Q :
  Q (Ok s) l s tr → mwp w self l s tr Q.
Proof. done. Qed.

Lemma mwp_gets {A} (f : L → A) l s tr Q :
  Q (Ok (f l)) l s tr → mwp w (gets f) l s tr Q.
Proof. done. Qed.

Lemma mwp_modify (f : L → L) l s tr Q :
  Q (Ok tt) (f l) s tr → mwp w (modify f) l s tr Q.
Proof. done. Qed.

Lemma mwp_invoke {A} (f : fn A) l s tr Q :
  wp w f s tr (λ o s' tr', Q o l s' tr') → mwp w (invoke f) l s tr Q.
Proof. intros H. apply wp_bind. revert H. by apply wp_mono. Qed.

Lemma wp_body {A} (init : L) (m : M L A) s tr Q :
  mwp w m init s tr (λ o _ s' tr', Q o s' tr') → wp w (body init m) s tr Q.
Proof. intros H. apply wp_bind. revert H. apply wp_mono. by intros [o l']. Qed.
End Rules.

Lemma mwp_assign {L} u (l : L) s tr Q :
  Q (Ok tt) l (u s) tr → mwp true (assign u) l s tr Q.
Proof. done. Qed.

(** Symbolic execution of a body, one statement at a time. *)
Ltac wp_step :=
  lazymatch goal with
  | |- wp _ (body _ _) _ _ _ => apply wp_body
  | |- mwp _ (_ ≫= _) _ _ _ _ => apply mwp_bind
  | |- mwp _ (try_except _ _) _ _ _ _ => apply mwp_try_except
  | |- mwp _ (try_finally _ _) _ _ _ _ => apply mwp_try_finally
  | |- mwp _ (await _) _ _ _ _ =>
      apply mwp_await; intros [?|?]; cbn [payload] in *;
      repeat match goal with a : unit |- _ => destruct a end
  | |- mwp _ now _ _ _ _ => apply mwp_now; intros ?
  | |- mwp _ self _ _ _ _ => apply mwp_self
  | |- mwp _ (assign _) _ _ _ _ => apply mwp_assign
  | |- mwp _ (gets _) _ _ _ _ => apply mwp_gets
  | |- mwp _ (modify _) _ _ _ _ => apply mwp_modify
  | |- mwp _ (mret _) _ _ _ _ => apply mwp_ret
  | |- mwp _ (ret _) _ _ _ _ => apply (mwp_ret _ _)
  | |- mwp _ (raise _) _ _ _ _ => apply mwp_raise
  | |- mwp _ (invoke _) _ _ _ _ => apply mwp_invoke
  | |- mwp _ (match ?x with Some _ => _ | None => _ end) _ _ _ _ =>
      destruct x eqn:?
  | |- mwp _ (if ?b then _ else _) _ _ _ _ => destruct b eqn:?
  end;
  cbn beta iota;
  cbn [browser context playwright headless timeout page result
       set_playwright set_browser set_context truthy negb orb andb].

Ltac wp_auto := repeat wp_step.

(** ** Traces *)

Lemma calls_app tr1 tr2 : calls (tr1 ++ tr2) = calls tr1 ++ calls tr2.
Proof. apply omap_app. Qed.

Lemma failures_app tr1 tr2 : failures (tr1 ++ tr2) = failures tr1 ++ failures tr2.
Proof. apply omap_app. Qed.

Lemma calls_nil : calls [] = [].
Proof. done. Qed.
Lemma calls_Ev c o tr : calls (Ev c o :: tr) = c :: calls tr.
Proof. done. Qed.
Lemma calls_Tick t tr : calls (Tick t :: tr) = calls tr.
Proof. done. Qed.
Lemma failures_nil : failures [] = [].
Proof. done. Qed.
Lemma failures_Ok c a tr : failures (Ev c (Ok a) :: tr) = failures tr.
Proof. done. Qed.
Lemma failures_Raise c e tr : failures (Ev c (Raise e) :: tr) = (c, e) :: failures tr.
Proof. done. Qed.
Lemma failures_Tick t tr : failures (Tick t :: tr) = failures tr.
Proof. done. Qed.

Create Rewrite HintDb trace.
#[global] Hint Rewrite calls_app calls_nil calls_Ev calls_Tick
  failures_app failures_nil failures_Ok failures_Raise failures_Tick : trace.

(** Goals of the shape [Forall P (calls tr)] over an explicit trace. *)
Ltac solve_calls :=
  autorewrite with trace;
  repeat first
    [ assumption
    | apply Forall_nil_2
    | apply Forall_cons_2; [done|]
    | apply Forall_app_2 ].

(** Bring the trace of the goal to the shape [tr ++ new events]. *)
Ltac trace_norm tr :=
  rewrite <- ?app_assoc; cbn [app];
  lazymatch goal with
  | |- context [tr ++ _] => idtac
  | |- _ => rewrite <- (app_nil_r tr)
  end.

Lemma truthy_str_Some o : truthy_str o = true → is_Some o.
Proof. destruct o; [eauto | done]. Qed.

Lemma strings_but_canonical_insert k v (m : metadata) :
  is_Some v ∨ k = "canonical" →
  strings_but_canonical m → strings_but_canonical (<[k := v]> m).
Proof.
  intros Hv Hm k' v'. rewrite lookup_insert.
  case_decide; [|by apply Hm]. intros [= <-]. subst. tauto.
Qed.

(** *** The metadata extractor *)

Lemma for_meta_tags_wp w tags m s tr Q :
  (∀ o m' tr', loop_post m o m' tr' → Q o m' s (tr ++ tr')) →
  mwp w (for_meta_tags tags) m s tr Q.
Proof.
  revert m tr Q. induction tags as [|meta rest IH]; intros m tr Q HQ.
  - apply mwp_ret. trace_norm tr. apply HQ. by repeat split.
  - cbn [for_meta_tags]. wp_auto.
    1-3: apply IH; intros o m' tr' (Hc & Hf & Hv); trace_norm tr; apply HQ;
      (split; [|split]); [by repeat constructor | exact Hf | intros Hm; apply Hv].
    4-6: trace_norm tr; apply HQ;
      (split; [|split]); [by repeat constructor | by eexists | done].
    + apply strings_but_canonical_insert; [|done].
      left. apply truthy_str_Some. by destruct (truthy_str a).
    + apply strings_but_canonical_insert; [|done].
      left. apply truthy_str_Some. by destruct (truthy_str a0).
    + done.
Qed.

Lemma strings_but_canonical_empty : strings_but_canonical ∅.
Proof. intros k v. by rewrite lookup_empty. Qed.

Lemma _extract_metadata_wp w pg s tr Q :
  (∀ m tr', extract_post m tr' → Q (Ok m) s (tr ++ tr')) →
  wp w (_extract_metadata pg) s tr Q.
Proof.
  intros HQ. unfold _extract_metadata, extract_try. wp_auto.
  { apply for_meta_tags_wp. intros [[]|e] m' tr' (Hc & Hf & Hv); cbn beta iota.
    2: destruct Hf as [c Hf].
    all: specialize (Hv strings_but_canonical_empty).
    all: wp_auto; trace_norm tr; apply HQ; (split; [|split]).
    all: autorewrite with trace; rewrite ?Hf; cbn [app]; unfold id.
    all: try solve_calls.
    all: try by left.
    all: try by (right; do 2 eexists; split; [done | by rewrite lookup_insert_eq]).
    all: repeat (apply strings_but_canonical_insert;
                 [first [by right | by left; apply truthy_str_Some | by left]|]);
         try done. }
  trace_norm tr. apply HQ. unfold id. split; [|split].
  - solve_calls.
  - right. do 2 eexists. split; [done | by rewrite lookup_insert_eq].
  - apply strings_but_canonical_insert; [by left|]. apply strings_but_canonical_empty.
Qed.

Lemma wp_exec_nil {A} w (p : proc A) s Q tr a s' :
  wp w p s [] Q → exec p s tr a s' → Q a s' tr.
Proof. intros H X. apply (wp_exec _ _ _ _ _ _ _ _ H X). Qed.

(** Reduce a statement about an execution to a [wp] goal. *)
Ltac by_wp w :=
  lazymatch goal with
  | H : exec ?p ?s ?tr ?a ?s' |- _ =>
      pattern a, s', tr;
      lazymatch goal with
      | |- ?Q a s' tr => refine (wp_exec_nil w p s Q tr a s' _ H); clear H
      end
  end.

Lemma wp_run_eq {A} w eng (p : proc A) s h Q o s' h' :
  wp w p s h Q → run eng p s h = (o, s', h') → Q o s' h'.
Proof. intros H E. apply (wp_run w eng) in H. by rewrite E in H. Qed.

(** Reduce a statement about [run eng p s h] to a [wp] goal. *)
Ltac by_wp_run w :=
  lazymatch goal with
  | |- context [run ?eng ?p ?s ?h] =>
      let o := fresh "o" in let s' := fresh "s'" in let h' := fresh "h'" in
      let E := fresh "E" in
      destruct (run eng p s h) as [[o s'] h'] eqn:E;
      pattern o, s', h';
      lazymatch goal with
      | |- ?Q o s' h' => refine (wp_run_eq w eng p s h Q o s' h' _ E); clear E
      end
  end.

(** *** scrape *)

Ltac scrape_step :=
  first
    [ wp_step
    | apply _extract_metadata_wp; intros ? ? (? & ? & ?) ].

Ltac scrape_exec :=
  unfold scrape, scrape_try, scrape_except, scrape_finally, set_item, set_page;
  repeat scrape_step.

Lemma session_open_inv s :
  session_open s = true → ∃ b c, browser s = Some b ∧ context s = Some c.
Proof.
  unfold session_open. destruct (browser s), (context s); try done. eauto.
Qed.

(** Start the symbolic execution of [scrape] on an open session. *)
Ltac open_session H :=
  let b := fresh "b" in let c := fresh "c" in
  let Hb := fresh in let Hc := fresh in
  apply session_open_inv in H as (b & c & Hb & Hc);
  lazymatch type of Hb with
  | browser ?s = _ => destruct s; simpl in Hb, Hc; subst
  end.

Lemma dom_initial_result url t : dom (initial_result url t) = result_keys.
Proof.
  unfold initial_result, result_keys. rewrite !dom_insert_L, dom_empty_L.
  set_solver.
Qed.

(** Lookups in, and the keys of, a dict built by assignments to the dict
    literal. *)
Ltac dict_lookup :=
  unfold initial_result;
  repeat first [rewrite lookup_insert_eq | rewrite lookup_insert_ne by done].

Ltac dict_dom :=
  rewrite ?dom_insert_L, dom_initial_result; unfold result_keys; set_solver.

Lemma failures_calls c e tr : (c, e) ∈ failures tr → c ∈ calls tr.
Proof.
  unfold failures, calls. rewrite !list_elem_of_omap.
  intros ([c' [a|e']|t] & Hin & Heq); simplify_eq/=. eauto.
Qed.

Lemma extraction_not_scrape_call c :
  extraction_call c = true → scrape_call c = true → False.
Proof. by destruct c. Qed.

Lemma extraction_failures_not_scrape tr c e :
  Forall (λ c, extraction_call c = true) (calls tr) →
  (c, e) ∈ failures tr → scrape_call c = true → False.
Proof.
  intros Hall Hin%failures_calls. rewrite Forall_forall in Hall.
  eauto using extraction_not_scrape_call.
Qed.

(** C3: on an open session [scrape] always returns normally, whatever the
    engine does: the outcome is a dict with exactly the eight keys, and any
    exception raised by page creation, the timeout setting, navigation, the
    URL read, the selector wait, or the content or title read ends up as
    [success = False] with [error] set to its message. *)
Theorem scrape_never_raises eng url wait_for_selector s h :
  session_open s = true →
  ∃ r tr, run eng (scrape url wait_for_selector) s h = (Ok r, s, h ++ tr) ∧
    dom r = result_keys ∧
    ∀ c e, (c, e) ∈ failures tr → scrape_call c = true →
      r !! "success" = Some (PBool false) ∧ r !! "error" = Some (PStr e).
Proof.
  intros Hop. by_wp_run false. clear o s' h'.
  open_session Hop. scrape_exec.
  all: trace_norm h; eexists _, _; split; [reflexivity|]; split; [dict_dom|].
  all: intros cx ex Hin Hsc; autorewrite with trace in Hin.
  all: rewrite ?elem_of_app, ?elem_of_cons, ?elem_of_nil in Hin.
  all: destruct_or?; simplify_eq; try done.
  all: try by (exfalso; eauto using extraction_failures_not_scrape).
  all: by dict_lookup.
Qed.

Lemma scrape_never_raises_witness :
  session_open open_scraper = true ∧
  ∃ r tr,
    run title_fails (scrape "https://example.com" (Some "h1")) open_scraper []
      = (Ok r, open_scraper, [] ++ tr) ∧
    dom r = result_keys ∧
    ∀ c e, (c, e) ∈ failures tr → scrape_call c = true →
      r !! "success" = Some (PBool false) ∧ r !! "error" = Some (PStr e).
Proof.
  split; [reflexivity|].
  apply (scrape_never_raises title_fails "https://example.com" (Some "h1")
           open_scraper []).
  reflexivity.
Defined.

(** *** The scraper object under [scrape] *)

Lemma wp_false_assignments {A} eng (p : proc A) s h Q :
  wp false p s h Q → assignments eng p s h = 0%nat.
Proof.
  revert s h. induction p as [a|c k IH|k IH|k IH|u k IH]; simpl; intros s h; eauto.
  intros [].
Qed.

Lemma wp_false_run {A} eng (p : proc A) s h Q :
  wp false p s h Q → (run eng p s h).1.2 = s.
Proof.
  intros H%wp_frozen. apply (wp_run true eng) in H. tauto.
Qed.

(** On an open session [scrape] performs no assignment to the object,
    whatever the engine answers. *)
Lemma scrape_frozen url wait_for_selector s h :
  session_open s = true →
  wp false (scrape url wait_for_selector) s h (λ _ _ _, True).
Proof. intros Hop. open_session Hop. by scrape_exec. Qed.

(** C10: a call of [scrape] on an instance whose browser and context are set
    leaves the object as it was ([headless], [timeout], [browser], [context]
    and [playwright] alike) and performs no assignment to it at all; so a
    call that does change the object started with [browser] or [context]
    unset. *)
Theorem scrape_preserves_open_scraper eng url wait_for_selector s h :
  session_open s = true →
  (run eng (scrape url wait_for_selector) s h).1.2 = s ∧
  assignments eng (scrape url wait_for_selector) s h = 0%nat.
Proof.
  intros Hop. split.
  - eapply wp_false_run, scrape_frozen, Hop.
  - eapply wp_false_assignments, scrape_frozen, Hop.
Qed.

Lemma scrape_preserves_open_scraper_witness :
  session_open open_scraper = true ∧
  (run example_engine (scrape "https://example.com" None) open_scraper []).1.2
    = open_scraper ∧
  assignments example_engine (scrape "https://example.com" None) open_scraper []
    = 0%nat.
Proof.
  split; [reflexivity|].
  apply (scrape_preserves_open_scraper example_engine "https://example.com" None
           open_scraper []).
  reflexivity.
Defined.

(** [scrape] on an instance that is not open does assign: the lazy
    initialisation starts by storing the driver. *)
Lemma scrape_assigns_when_closed eng url wait_for_selector s h pw :
  session_open s = false →
  respond eng h PlaywrightStart = Ok pw →
  (0 < assignments eng (scrape url wait_for_selector) s h)%nat.
Proof.
  intros Hcl Hpw. unfold session_open in Hcl.
  unfold scrape, body, _initialize_browser. unfold mbind, M_bind, bind, self. simpl.
  destruct (browser s), (context s); try done; simpl; rewrite Hpw; simpl; lia.
Qed.

(** *** Opening and closing the session *)

(** [close] returns normally, having made exactly the calls [close_calls]. *)
Lemma close_wp w s tr (Q : outcome unit → WebScraper → trace → Prop) :
  (∀ tr', calls tr' = close_calls s → Q (Ok tt) s (tr ++ tr')) →
  wp w close s tr Q.
Proof.
  intros HQ. unfold close, close_calls in *.
  wp_auto.
  all: trace_norm tr; apply HQ; reflexivity.
Qed.

Lemma extraction_not_open_call c :
  extraction_call c = true → open_call c = false.
Proof. by destruct c. Qed.

Lemma Forall_extraction_not_open cs :
  Forall (λ c, extraction_call c = true) cs → Forall (λ c, open_call c = false) cs.
Proof. intros H. eapply Forall_impl; [exact H | apply extraction_not_open_call]. Qed.

(** C5, as the code has it: the guard sits in [scrape], not in the open
    operation.  A [scrape] on a session that is already open opens nothing:
    it starts no driver, launches no browser and creates no context, and it
    leaves the session as it was. *)
Theorem scrape_does_not_reopen eng url wait_for_selector s h :
  session_open s = true →
  ∃ o tr, run eng (scrape url wait_for_selector) s h = (o, s, h ++ tr) ∧
    Forall (λ c, open_call c = false) (calls tr).
Proof.
  intros Hop. by_wp_run false. clear o s' h'.
  open_session Hop. scrape_exec.
  all: trace_norm h; eexists _, _; split; [reflexivity|].
  all: autorewrite with trace;
       repeat first
         [ apply Forall_nil_2
         | apply Forall_cons_2; [done|]
         | apply Forall_app_2; [by apply Forall_extraction_not_open|] ].
Qed.

Lemma scrape_does_not_reopen_witness :
  session_open open_scraper = true ∧
  ∃ o tr,
    run fresh_handles (scrape "https://example.com" None) open_scraper []
      = (o, open_scraper, [] ++ tr) ∧
    Forall (λ c, open_call c = false) (calls tr).
Proof.
  split; [reflexivity|].
  apply (scrape_does_not_reopen fresh_handles "https://example.com" None
           open_scraper []).
  reflexivity.
Defined.

(** The open operation itself is unconditional: entered on a session that is
    already open, [__aenter__] starts a second driver, launches a second
    browser and replaces the browsing context. *)
Lemma open_is_not_idempotent :
  session_open open_scraper = true ∧
  calls (run fresh_handles __aenter__ open_scraper []).2 =
    [PlaywrightStart; ChromiumLaunch 10%nat true;
     NewContext 11%nat 1920 1080 user_agent] ∧
  (run fresh_handles __aenter__ open_scraper []).1.2 =
    {| headless := true; timeout := 30000;
       browser := Some 11%nat; context := Some 12%nat; playwright := Some 10%nat |} ∧
  (run fresh_handles __aenter__ open_scraper []).1.2 ≠ open_scraper.
Proof. repeat split; try reflexivity. vm_compute. discriminate. Qed.

(** C6: [close] makes its release calls in the order context, browser,
    driver (each one if the object holds the handle), whatever the engine
    answers to each of them: an exception of one step is swallowed and the
    next steps still run.  It returns normally and leaves the handles in
    place, so a second [close] makes the same calls again and returns
    normally as well. *)
Theorem close_releases_in_order eng s h :
  ∃ tr tr2,
    run eng close s h = (Ok tt, s, h ++ tr) ∧
    calls tr = close_calls s ∧
    run eng close s (h ++ tr) = (Ok tt, s, (h ++ tr) ++ tr2) ∧
    calls tr2 = close_calls s.
Proof.
  assert (∀ h, ∃ tr, run eng close s h = (Ok tt, s, h ++ tr) ∧
                     calls tr = close_calls s) as Hclose.
  { clear h. intros h. by_wp_run false. clear o s' h'.
    apply close_wp. intros tr' Htr. by exists tr'. }
  destruct (Hclose h) as (tr & E1 & C1).
  destruct (Hclose (h ++ tr)) as (tr2 & E2 & C2).
  by exists tr, tr2.
Qed.

(** *** The result dict *)

(** Symbolic execution of [scrape] from any object state: open, or with
    [browser] or [context] unset, in which case it first initialises. *)
Ltac scrape_exec_any s :=
  destruct s as [? ? [?|] [?|] ?];
  unfold scrape, _initialize_browser, scrape_try, scrape_except, scrape_finally,
    set_item, set_page;
  repeat scrape_step;
  rewrite <- ?app_assoc; cbn [app].


Lemma run_exec_eq {A} eng (p : proc A) s o s' tr :
  run eng p s [] = (o, s', tr) → exec p s tr o s'.
Proof.
  intros E. destruct (run_exec eng p s []) as (tr' & Htr & Hex).
  rewrite E in Htr, Hex. simpl in *. by subst.
Qed.



(** *** The url field *)

Lemma page_urls_cons e tr :
  page_urls (e :: tr) = option_list (page_url_of e) ++ page_urls tr.
Proof. unfold page_urls. simpl. by destruct (page_url_of e). Qed.
Lemma page_urls_app tr1 tr2 : page_urls (tr1 ++ tr2) = page_urls tr1 ++ page_urls tr2.
Proof. apply omap_app. Qed.
Lemma responses_cons e tr :
  responses (e :: tr) = option_list (response_of e) ++ responses tr.
Proof. unfold responses. simpl. by destruct (response_of e). Qed.
Lemma responses_app tr1 tr2 : responses (tr1 ++ tr2) = responses tr1 ++ responses tr2.
Proof. apply omap_app. Qed.
Lemma titles_cons e tr :
  titles (e :: tr) = option_list (title_of e) ++ titles tr.
Proof. unfold titles. simpl. by destruct (title_of e). Qed.
Lemma titles_app tr1 tr2 : titles (tr1 ++ tr2) = titles tr1 ++ titles tr2.
Proof. apply omap_app. Qed.

(** The DOM queries of the extractor read no page URL, no response and no
    title. *)
Lemma extraction_reads tr :
  Forall (λ c, extraction_call c = true) (calls tr) →
  page_urls tr = [] ∧ responses tr = [] ∧ titles tr = [].
Proof.
  induction tr as [|[c o|t] tr IH]; [done| |];
    rewrite page_urls_cons, responses_cons, titles_cons.
  - rewrite calls_Ev. intros [Hc Htr]%Forall_cons.
    destruct (IH Htr) as (-> & -> & ->). by destruct c.
  - by rewrite calls_Tick.
Qed.

Ltac reads_simpl :=
  repeat
    match goal with
    | H : Forall (λ c, extraction_call c = true) (calls ?tr) |- _ =>
        destruct (extraction_reads tr H) as (? & ? & ?); clear H
    end;
  rewrite ?page_urls_cons, ?page_urls_app, ?responses_cons, ?responses_app,
    ?titles_cons, ?titles_app;
  repeat match goal with H : page_urls _ = [] |- _ => rewrite ?H; clear H end;
  repeat match goal with H : responses _ = [] |- _ => rewrite ?H; clear H end;
  repeat match goal with H : titles _ = [] |- _ => rewrite ?H; clear H end;
  cbn [page_url_of response_of title_of option_list app page_urls responses
       titles omap list_omap].

(** C7, as the code has it: the [url] of a result is the input URL unless
    navigation returned a response, in which case [scrape] reads [page.url]
    and stores it at once, before the selector wait and the content and
    title reads; the result then carries the resolved URL whether or not the
    scrape goes on to succeed.  A result whose navigation raised or returned
    no response carries the input URL. *)
Theorem scrape_url_field url wait_for_selector s tr r s' :
  exec (scrape url wait_for_selector) s tr (Ok r) s' →
  match responses tr, page_urls tr with
  | _ :: _, final :: _ => r !! "url" = Some (PStr final)
  | _, _ => r !! "url" = Some (PStr url)
  end ∧
  (responses tr ≠ [] → ∃ pg, PageUrl pg ∈ calls tr) ∧
  (page_urls tr ≠ [] → responses tr ≠ []).
Proof.
  intros Hex. remember (Ok r) as o eqn:Ho. revert r Ho. by_wp true.
  scrape_exec_any s.
  all: intros r' Hr; simplify_eq.
  all: autorewrite with trace; reads_simpl.
  all: split; [by dict_lookup|]; split; [|done].
  all: intros Hne; first
    [ done
    | lazymatch goal with
      | |- ∃ pg, PageUrl pg ∈ ?l =>
          lazymatch l with context [PageUrl ?a] => exists a end
      end;
      rewrite !elem_of_cons; tauto ].
Qed.

Lemma scrape_url_field_witness :
  let res := run selector_times_out (scrape "http://example.com" (Some "h1"))
               open_scraper [] in
  exec (scrape "http://example.com" (Some "h1")) open_scraper res.2
       (Ok (result_of res.1.1)) open_scraper ∧
  (match responses res.2, page_urls res.2 with
   | _ :: _, final :: _ => result_of res.1.1 !! "url" = Some (PStr final)
   | _, _ => result_of res.1.1 !! "url" = Some (PStr "http://example.com")
   end ∧
   (responses res.2 ≠ [] → ∃ pg, PageUrl pg ∈ calls res.2) ∧
   (page_urls res.2 ≠ [] → responses res.2 ≠ [])).
Proof.
  intros res.
  assert (exec (scrape "http://example.com" (Some "h1")) open_scraper res.2
            (Ok (result_of res.1.1)) open_scraper) as Hex.
  { apply (run_exec_eq selector_times_out). vm_compute. reflexivity. }
  split; [exact Hex|].
  exact (scrape_url_field "http://example.com" (Some "h1") open_scraper
           res.2 (result_of res.1.1) open_scraper Hex).
Defined.

(** A failed scrape does not always carry the input URL: after a redirect,
    a selector that never appears leaves the resolved URL in the result. *)
Lemma failed_scrape_carries_resolved_url :
  let r := result_of
    (scrape_url selector_times_out "http://example.com" true (Some "h1") []).1 in
  r !! "success" = Some (PBool false) ∧
  r !! "url" = Some (PStr "https://www.example.com/home") ∧
  r !! "url" ≠ Some (PStr "http://example.com").
Proof. repeat split; vm_compute; (reflexivity || discriminate). Qed.

(** *** Metadata extraction *)

Lemma run_bind {A B} eng (p : proc A) (f : A → proc B) s h :
  run eng (proc_bind p f) s h =
  run eng (f (run eng p s h).1.1) (run eng p s h).1.2 (run eng p s h).2.
Proof.
  revert s h. induction p as [a|c k IH|k IH|k IH|u k IH]; simpl; intros s h; auto.
Qed.

(** If the [try] block of the extractor raises [e] with [collected] in its
    dict, the extractor returns that dict with [extraction_error] set. *)
Lemma _extract_metadata_on_failure eng pg s h e (collected : metadata) s' h' :
  run eng (extract_try pg ∅) s h = (Raise e, collected, s', h') →
  run eng (_extract_metadata pg) s h =
    (Ok (<["extraction_error" := Some e]> collected), s', h').
Proof.
  intros E. unfold _extract_metadata, body, mbind, M_bind, bind, try_except.
  rewrite !run_bind, E. reflexivity.
Qed.

(** Two postconditions that hold, hold together; and an execution that
    assigns nothing is an execution. *)
Lemma wp_conj {A} w (p : proc A) s tr (Q1 Q2 : A → WebScraper → trace → Prop) :
  wp w p s tr Q1 → wp w p s tr Q2 →
  wp w p s tr (λ a s' tr', Q1 a s' tr' ∧ Q2 a s' tr').
Proof.
  revert s tr. induction p as [a|c k IH|k IH|k IH|u k IH]; simpl; intros s tr; auto.
  destruct w; auto.
Qed.

Lemma wp_true {A} w (p : proc A) s tr Q :
  wp w p s tr Q → wp true p s tr Q.
Proof.
  revert s tr. induction p as [a|c k IH|k IH|k IH|u k IH]; simpl; intros s tr; auto.
  destruct w; [auto | done].
Qed.

Lemma attributes_app tr1 tr2 :
  attributes (tr1 ++ tr2) = attributes tr1 ++ attributes tr2.
Proof. apply omap_app. Qed.

Lemma assign_all_app l1 l2 m :
  assign_all (l1 ++ l2) m = assign_all l2 (assign_all l1 m).
Proof. apply foldl_app. Qed.

Lemma tag_entries_tag el name property_attr content rest :
  tag_entries ((el, "name", name) :: (el, "property", property_attr)
               :: (el, "content", content) :: rest)
  = tag_entry name property_attr content ++ tag_entries rest.
Proof. cbn [tag_entries]. by rewrite !Nat.eqb_refl. Qed.

(** The loop, exactly: it makes the assignments of [tag_entries] for what
    it read; what it read are attributes of tags, three for each tag it got
    through, and, if it was stopped by an exception, at most two more. *)
Lemma for_meta_tags_exact_wp w tags m s tr Q :
  (∀ o m' tr',
     m' = assign_all (tag_entries (attributes tr')) m →
     attributes tr' ≫= link_entry = [] →
     (∀ u, o = Ok u →
        failures tr' = [] ∧
        ∀ sfx, tag_entries (attributes tr' ++ sfx)
               = tag_entries (attributes tr') ++ tag_entries sfx) →
     (∀ e, o = Raise e → ∃ c, failures tr' = [(c, e)]) →
     Q o m' s (tr ++ tr')) →
  mwp w (for_meta_tags tags) m s tr Q.
Proof.
  revert m tr Q. induction tags as [|meta rest IH]; intros m tr Q HQ.
  - apply mwp_ret. trace_norm tr. by apply HQ.
  - cbn [for_meta_tags]. wp_auto.
    1-3: apply IH; intros o m' tr' -> Hlink Hok Hraise; trace_norm tr;
      apply HQ; cbn [attributes omap list_omap attribute_of];
      fold (attributes tr'); rewrite ?tag_entries_tag.
    1,5,9: rewrite assign_all_app; unfold tag_entry; rewrite ?Heqb, ?Heqb0;
      reflexivity.
    1,4,7: rewrite !bind_cons, Hlink; reflexivity.
    1,3,5: intros u ->; destruct (Hok _ eq_refl) as [Hf Hsfx];
      (split; [by autorewrite with trace|]); intros sfx; cbn [app];
      by rewrite tag_entries_tag, Hsfx, app_assoc.
    1-3: intros e ->; destruct (Hraise _ eq_refl) as [c Hc]; exists c;
      by autorewrite with trace.
    all: trace_norm tr; apply HQ; try done.
    all: intros e' [= <-]; by eexists.
Qed.

Lemma link_entry_href el v : link_entry (el, "href", v) = [("canonical", v)].
Proof. reflexivity. Qed.

Lemma link_entry_lang el v :
  link_entry (el, "lang", v) = if truthy_str v then [("language", v)] else [].
Proof. reflexivity. Qed.

(** The extractor, exactly: what it returns is [metadata_after] its own
    events. *)
Lemma _extract_metadata_exact_wp w pg s tr Q :
  (∀ m tr', m = metadata_after tr' → Q (Ok m) s (tr ++ tr')) →
  wp w (_extract_metadata pg) s tr Q.
Proof.
  intros HQ. unfold _extract_metadata, extract_try. wp_auto.
  { apply for_meta_tags_exact_wp.
    intros [[]|e] m' tr' -> Hlink Hok Hraise; cbn beta iota.
    1: destruct (Hok tt eq_refl) as [Hf Hsfx]; clear Hok Hraise.
    2: destruct (Hraise e eq_refl) as [c Hf]; clear Hok Hraise.
    all: wp_auto; trace_norm tr; apply HQ; unfold id.
    all: unfold metadata_after; autorewrite with trace; rewrite Hf; cbn [app].
    all: unfold metadata_read, entries_read, attributes;
         cbn [omap list_omap attribute_of]; rewrite ?omap_app;
         cbn [omap list_omap attribute_of]; fold (attributes tr').
    all: rewrite ?Hsfx, ?bind_app, ?Hlink, ?bind_cons, ?bind_nil,
           ?link_entry_href, ?link_entry_lang, ?app_nil_r;
         cbn [tag_entries app];
         repeat match goal with H : truthy_str _ = _ |- _ => rewrite H end;
         rewrite ?app_nil_r, ?assign_all_app; reflexivity. }
  trace_norm tr. apply HQ. reflexivity.
Qed.

Lemma metadata_after_ne tr k :
  k ≠ "extraction_error" → metadata_after tr !! k = metadata_read tr !! k.
Proof.
  intros Hk. unfold metadata_after. destruct (failures tr) as [|[c e] ?]; [done|].
  by rewrite lookup_insert_ne.
Qed.

(** All that is known of a call of the extractor from [scrape]. *)
Lemma _extract_metadata_read_wp w pg s tr Q :
  (∀ m tr', extract_post m tr' → m = metadata_after tr' → Q (Ok m) s (tr ++ tr')) →
  wp w (_extract_metadata pg) s tr Q.
Proof.
  intros HQ.
  eapply wp_mono;
    [|apply wp_conj;
      [apply (_extract_metadata_wp w pg s tr
                (λ o s' h', ∃ m tr', o = Ok m ∧ s' = s ∧ h' = tr ++ tr' ∧
                                     extract_post m tr'))
      |apply (_extract_metadata_exact_wp w pg s tr
                (λ o s' h', ∃ m tr', o = Ok m ∧ h' = tr ++ tr' ∧
                                     m = metadata_after tr'))]].
  - intros o s' h' [(m & tr1 & -> & -> & -> & Hpost) (m2 & tr2 & [= <-] & Heq & Hm)].
    apply app_inv_head in Heq as <-. by apply HQ.
  - intros m tr' Hpost. by eexists _, _.
  - intros m tr' Hm. by eexists _, _.
Qed.

Ltac scrape_step_read :=
  first
    [ wp_step
    | apply _extract_metadata_read_wp; intros ? ? (? & ? & ?) ? ].

Ltac scrape_exec_any_read s :=
  destruct s as [? ? [?|] [?|] ?];
  unfold scrape, _initialize_browser, scrape_try, scrape_except, scrape_finally,
    set_item, set_page;
  repeat scrape_step_read;
  rewrite <- ?app_assoc; cbn [app].

(** The attributes read along the events of a scrape are those that its
    extractor read. *)
Ltac attributes_simpl :=
  unfold metadata_read, entries_read, attributes;
  cbn [omap list_omap attribute_of]; rewrite ?omap_app;
  cbn [omap list_omap attribute_of]; rewrite ?app_nil_r.

(** C8, as the code has it.  In the extractor: when its [try] block raises
    [e], the extractor still returns, with [str(e)] under
    [extraction_error] and with every pair collected so far under any other
    key; and what was collected so far is what was read off the page before
    the failure: under every other key, the dict holds the content of the
    last tag read under that key (or the link's [href], or the document's
    [lang]), as [metadata_read] computes it from the attributes that the
    engine returned.  The extractor never raises, and what it returns is
    determined by what it read ([metadata_after]).  In [scrape]: once the
    title has been read the result is a success, whatever the extractor's
    queries do afterwards; an exception raised by one of them is found
    under [extraction_error] of the result's [meta], and under every other
    key the [meta] holds what was read off the page. *)
Theorem extraction_failure_is_not_fatal :
  (∀ eng pg s h e (collected : metadata) s' h',
     run eng (extract_try pg ∅) s h = (Raise e, collected, s', h') →
     ∃ m tr, run eng (_extract_metadata pg) s h = (Ok m, s', h') ∧
       h' = h ++ tr ∧
       m !! "extraction_error" = Some (Some e) ∧
       (∀ k, k ≠ "extraction_error" → m !! k = collected !! k) ∧
       (∀ k, k ≠ "extraction_error" → collected !! k = metadata_read tr !! k)) ∧
  (∀ eng pg s h,
     ∃ m tr, run eng (_extract_metadata pg) s h = (Ok m, s, h ++ tr) ∧
       m = metadata_after tr) ∧
  (∀ url wait_for_selector s tr r s',
     exec (scrape url wait_for_selector) s tr (Ok r) s' →
     titles tr ≠ [] →
     r !! "success" = Some (PBool true) ∧
     (∃ html, r !! "html" = Some (PStr html)) ∧
     (∃ title, r !! "title" = Some (PStr title)) ∧
     ∃ m, r !! "meta" = Some (PDict m) ∧
       (∀ c e, (c, e) ∈ failures tr → extraction_call c = true →
          m !! "extraction_error" = Some (Some e)) ∧
       (∀ k, k ≠ "extraction_error" → m !! k = metadata_read tr !! k)).
Proof.
  assert (∀ eng pg s h,
     ∃ m tr, run eng (_extract_metadata pg) s h = (Ok m, s, h ++ tr) ∧
       m = metadata_after tr) as Hexact.
  { intros eng pg s h. by_wp_run false. clear o s' h'.
    apply _extract_metadata_exact_wp. intros m tr ->. by eexists _, _. }
  split; [|split; [exact Hexact|]].
  - intros eng pg s h e collected s' h' E.
    apply _extract_metadata_on_failure in E.
    destruct (Hexact eng pg s h) as (m & tr & E' & Hm).
    rewrite E in E'. simplify_eq.
    eexists _, tr. split; [exact E|]. split; [done|].
    split; [by rewrite lookup_insert_eq|].
    split; [intros k Hk; by rewrite lookup_insert_ne|].
    intros k Hk. rewrite <- (metadata_after_ne tr k Hk).
    match goal with H : _ = metadata_after tr |- _ => rewrite <- H end.
    by rewrite lookup_insert_ne.
  - intros url sel s tr r s' Hex.
    remember (Ok r) as o eqn:Ho. revert r Ho. by_wp true.
    scrape_exec_any_read s.
    all: intros r' Hr; simplify_eq.
    all: try (intros Ht; exfalso; apply Ht; clear Ht; by reads_simpl).
    all: intros _; split; [by dict_lookup|].
    all: split; [eexists; by dict_lookup|].
    all: split; [eexists; by dict_lookup|].
    all: eexists; split; [by dict_lookup|].
    all: split;
      [|intros k Hk; attributes_simpl; by apply metadata_after_ne].
    all: intros cx ex Hin Hc; autorewrite with trace in Hin.
    all: lazymatch goal with
         | H : _ ∨ _ |- _ => destruct H as [Hf|(cf & ef & Hf & Hm)]
         end; rewrite Hf in Hin.
    all: rewrite ?elem_of_app, ?elem_of_cons, ?elem_of_nil in Hin.
    all: destruct_or?; simplify_eq; done.
Qed.

Lemma extraction_failure_is_not_fatal_witness :
  let eng := link_query_fails in
  let e := "Execution context was destroyed" in
  let try_block := run eng (extract_try 4%nat ∅) open_scraper [] in
  let res := run eng (scrape "https://example.com" None) open_scraper [] in
  (run eng (extract_try 4%nat ∅) open_scraper []
     = (Raise e, try_block.1.1.2, open_scraper, try_block.2) ∧
   try_block.1.1.2 !! "description" = Some (Some "An example page") ∧
   try_block.1.1.2 !! "og:title" = Some (Some "Example") ∧
   ∃ m tr, run eng (_extract_metadata 4%nat) open_scraper []
          = (Ok m, open_scraper, try_block.2) ∧
     try_block.2 = [] ++ tr ∧
     m !! "extraction_error" = Some (Some e) ∧
     (∀ k, k ≠ "extraction_error" → m !! k = try_block.1.1.2 !! k) ∧
     (∀ k, k ≠ "extraction_error" →
        try_block.1.1.2 !! k = metadata_read tr !! k)) ∧
  (exec (scrape "https://example.com" None) open_scraper res.2
        (Ok (result_of res.1.1)) open_scraper ∧
   titles res.2 ≠ [] ∧
   metadata_read res.2 !! "description" = Some (Some "An example page") ∧
   result_of res.1.1 !! "success" = Some (PBool true) ∧
   (∃ html, result_of res.1.1 !! "html" = Some (PStr html)) ∧
   (∃ title, result_of res.1.1 !! "title" = Some (PStr title)) ∧
   ∃ m, result_of res.1.1 !! "meta" = Some (PDict m) ∧
     (∀ c e, (c, e) ∈ failures res.2 → extraction_call c = true →
        m !! "extraction_error" = Some (Some e)) ∧
     (∀ k, k ≠ "extraction_error" → m !! k = metadata_read res.2 !! k)).
Proof.
  intros eng e try_block res.
  assert (run eng (extract_try 4%nat ∅) open_scraper []
            = (Raise e, try_block.1.1.2, open_scraper, try_block.2)) as E.
  { vm_compute. reflexivity. }
  assert (exec (scrape "https://example.com" None) open_scraper res.2
            (Ok (result_of res.1.1)) open_scraper) as Hex.
  { apply (run_exec_eq eng). vm_compute. reflexivity. }
  assert (titles res.2 ≠ []) as Ht.
  { vm_compute. discriminate. }
  split.
  - split; [exact E|].
    split; [vm_compute; reflexivity|]. split; [vm_compute; reflexivity|].
    exact (proj1 extraction_failure_is_not_fatal eng 4%nat open_scraper [] e
             try_block.1.1.2 open_scraper try_block.2 E).
  - split; [exact Hex|]. split; [exact Ht|].
    split; [vm_compute; reflexivity|].
    exact (proj2 (proj2 extraction_failure_is_not_fatal) "https://example.com" None
             open_scraper res.2 (result_of res.1.1) open_scraper Hex Ht).
Defined.

(** A pair collected under the key [extraction_error] is not retained when
    the extraction then fails: the failure description replaces it. *)
Lemma collected_extraction_error_is_overwritten :
  let eng := meta_named_extraction_error in
  let try_block := run eng (extract_try 4%nat ∅) open_scraper [] in
  let returned := run eng (_extract_metadata 4%nat) open_scraper [] in
  try_block.1.1.1 = Raise "Execution context was destroyed" ∧
  try_block.1.1.2 !! "extraction_error" = Some (Some "from the page") ∧
  ∃ m, returned.1.1 = Ok m ∧
    m !! "extraction_error" = Some (Some "Execution context was destroyed") ∧
    m !! "extraction_error" ≠ try_block.1.1.2 !! "extraction_error".
Proof.
  intros eng try_block returned.
  split; [vm_compute; reflexivity|]. split; [vm_compute; reflexivity|].
  exists (<["extraction_error" := Some "Execution context was destroyed"]>
            try_block.1.1.2).
  split; [vm_compute; reflexivity|]. split; [vm_compute; reflexivity|].
  vm_compute. discriminate.
Qed.

(** *** The values of the meta mapping *)

(** Every value recorded in the meta mapping of a result is a string, with
    the one exception of [canonical], which holds whatever the engine
    returned for the link's [href]. *)
Lemma scrape_meta_values url wait_for_selector s tr r s' :
  exec (scrape url wait_for_selector) s tr (Ok r) s' →
  ∃ m, r !! "meta" = Some (PDict m) ∧ strings_but_canonical m.
Proof.
  intros Hex. remember (Ok r) as o eqn:Ho. revert r Ho. by_wp true.
  scrape_exec_any s.
  all: intros r' Hr; simplify_eq.
  all: eexists; split; [by dict_lookup|].
  all: first [assumption | apply strings_but_canonical_empty].
Qed.

(** C9 fails on a page whose canonical link has no [href]: the scrape
    succeeds and its [meta] maps [canonical] to [None]. *)
Lemma canonical_without_href_is_None :
  let r := result_of
    (scrape_url canonical_without_href "https://example.com" true None []).1 in
  r !! "success" = Some (PBool true) ∧
  meta_of r !! "canonical" = Some None ∧
  meta_of r !! "language" = Some (Some "en").
Proof. repeat split; vm_compute; reflexivity. Qed.

(** *** The batch: counting the active tasks *)

Lemma active_cons t ts : active (t :: ts) = (weight t + active ts)%nat.
Proof. unfold active, weight. simpl. by destruct (is_running t). Qed.

Lemma active_insert ts i t t' :
  ts !! i = Some t →
  (active (<[i := t']> ts) + weight t = active ts + weight t')%nat.
Proof.
  revert i. induction ts as [|x ts IH]; intros [|i] Hi; simplify_eq/=.
  - rewrite !active_cons. lia.
  - rewrite !active_cons. specialize (IH i Hi). lia.
Qed.

Lemma active_queued urls : active (Queued <$> urls) = 0%nat.
Proof. induction urls; [done|]. by rewrite fmap_cons, active_cons, IHurls. Qed.

Lemma step_sem eng st st' :
  step eng st st' →
  0 ≤ sem_value st →
  0 ≤ sem_value st' ∧
  sem_value st' + Z.of_nat (active (tasks st')) =
  sem_value st + Z.of_nat (active (tasks st)).
Proof.
  intros Hstep Hsem.
  destruct Hstep as [st i url Hi Hpos|st i c k tr Hi|st i k tr Hi|st i k tr Hi
                    |st i u k tr Hi|st i o tr Hi]; simpl;
    match goal with
    | |- context [<[i := ?t']> (tasks st)] =>
        pose proof (active_insert _ _ _ t' Hi) as Ha
    end; unfold weight in Ha; simpl in Ha; lia.
Qed.

Lemma reachable_sem eng s h K urls st :
  0 ≤ K →
  rtc (step eng) (start s h K urls) st →
  0 ≤ sem_value st ∧ sem_value st = K - Z.of_nat (active (tasks st)).
Proof.
  intros HK Hrtc. revert st Hrtc. apply rtc_ind_r.
  - simpl. rewrite active_queued. lia.
  - intros mid st Hmid Hstep [Hpos Heq].
    destruct (step_sem _ _ _ Hstep Hpos). lia.
Qed.

Lemma step_keeps_queued eng st st' i url :
  step eng st st' →
  sem_value st ≤ 0 →
  tasks st !! i = Some (Queued url) →
  tasks st' !! i = Some (Queued url).
Proof.
  intros Hstep Hsem Hi.
  destruct Hstep as [st j url' Hj Hpos|st j c k tr Hj|st j k tr Hj|st j k tr Hj
                    |st j u k tr Hj|st j o tr Hj]; simpl; [lia|..];
    (destruct (decide (j = i)) as [->|Hne];
     [congruence | by rewrite list_lookup_insert_ne]).
Qed.

(** *** The batch: every schedule terminates *)

Lemma task_lt_wf t : Acc task_lt t.
Proof.
  assert (∀ o tr, Acc task_lt (Finished o tr)) as Hfin.
  { intros o tr. constructor. intros t' []. }
  assert (∀ p tr, Acc task_lt (Running p tr)) as Hrun.
  { induction p as [a|c k IH|k IH|k IH|u k IH]; intros tr; constructor; simpl.
    - intros t' (tr' & ->). apply Hfin.
    - intros t' (o & tr' & ->). apply IH.
    - intros t' (x & tr' & ->). apply IH.
    - intros t' (s & tr' & ->). apply IH.
    - intros t' (tr' & ->). apply IH. }
  destruct t as [url|p tr|o tr]; auto.
  constructor. intros t' (p & tr & ->). apply Hrun.
Qed.

Lemma list_lt_wf {A} (R : A → A → Prop) :
  (∀ x, Acc R x) → ∀ l, Acc (list_lt R) l.
Proof.
  intros HR. induction l as [|x l IHl].
  - constructor. intros l' Hl'. inversion Hl'.
  - revert l IHl. induction (HR x) as [x _ IHx]. intros l IHl.
    induction IHl as [l Hl IH]. constructor. intros l' Hl'.
    inversion Hl' as [x' y l0 Hyx|x' l0 l1 Hlt]; simplify_eq.
    + apply IHx; [done|]. by constructor.
    + by apply IH.
Qed.

Lemma insert_list_lt {A} (R : A → A → Prop) l i x y :
  l !! i = Some x → R y x → list_lt R (<[i := y]> l) l.
Proof.
  revert i. induction l as [|z l IH]; intros [|i] Hi Hyx; simplify_eq/=.
  - by constructor.
  - constructor. by apply IH.
Qed.

Lemma step_tasks_lt eng st st' :
  step eng st st' → list_lt task_lt (tasks st') (tasks st).
Proof.
  intros Hstep.
  destruct Hstep as [st i url Hi Hpos|st i c k tr Hi|st i k tr Hi|st i k tr Hi
                    |st i u k tr Hi|st i o tr Hi]; simpl;
    (eapply insert_list_lt; [exact Hi|]); simpl; eauto.
Qed.

Lemma step_sn eng st : sn (step eng) st.
Proof.
  pose proof (list_lt_wf task_lt task_lt_wf (tasks st)) as Hacc.
  remember (tasks st) as ts eqn:Hts. revert st Hts.
  induction Hacc as [ts _ IH]. intros st ->.
  constructor. intros st' Hstep. unfold flip in Hstep.
  eapply IH; [|reflexivity]. by eapply step_tasks_lt.
Qed.

(** *** The batch: what each task computes *)

Lemma scrape_exec_returns url wait_for_selector s tr o s' :
  session_open s = true →
  exec (scrape url wait_for_selector) s tr o s' → ∃ r, o = Ok r.
Proof.
  intros Hop Hex. by_wp false. open_session Hop. scrape_exec.
  all: by eexists.
Qed.

Lemma __aexit___returns eng s h : (run eng __aexit__ s h).1.1 = Ok false.
Proof.
  by_wp_run false. clear o s' h'. unfold __aexit__. wp_auto.
  apply close_wp. intros tr' _. cbn beta iota. by wp_auto.
Qed.

Lemma __aenter___opens eng s h s1 h1 :
  run eng __aenter__ s h = (Ok tt, s1, h1) → session_open s1 = true.
Proof.
  intros E.
  refine (wp_run_eq true eng __aenter__ s h
            (λ o s2 _, ∀ u, o = Ok u → session_open s2 = true) _ _ _ _ E tt eq_refl).
  clear E. unfold __aenter__, _initialize_browser. wp_auto; by intros.
Qed.

Lemma Forall2_task_insert s1 urls ts i url t :
  Forall2 (task_ok s1) urls ts →
  urls !! i = Some url →
  task_ok s1 url t →
  Forall2 (task_ok s1) urls (<[i := t]> ts).
Proof.
  intros Hall Hi Ht. rewrite <- (list_insert_id urls i url Hi).
  by apply Forall2_insert.
Qed.

Lemma step_batch_inv eng s1 K urls st st' :
  session_open s1 = true →
  batch_inv s1 K urls st →
  step eng st st' →
  batch_inv s1 K urls st'.
Proof.
  intros Hop (Hs & Hpos & Hsem & Hall) Hstep.
  destruct (step_sem _ _ _ Hstep Hpos) as [Hpos' Hsem'].
  assert (scraper st' = s1 ∧ Forall2 (task_ok s1) urls (tasks st')) as [? ?];
    [|by (repeat split; [..|lia|])].
  destruct Hstep as [st i url Hi Hgt|st i c k tr Hi|st i k tr Hi|st i k tr Hi
                    |st i u k tr Hi|st i o tr Hi]; simpl in *;
    destruct (Forall2_lookup_r _ _ _ _ _ Hall Hi) as (url0 & Hurl & Hok);
    simpl in Hok.
  - subst. split; [done|]. eapply Forall2_task_insert; [done..|]. simpl. split.
    + by apply scrape_frozen.
    + by intros tr2 o s2.
  - destruct Hok as [Hwp Hres]. split; [done|].
    eapply Forall2_task_insert; [done..|]. simpl. split; [apply Hwp|].
    intros tr2 o s2 Hex. rewrite <- app_assoc. apply Hres. by constructor.
  - destruct Hok as [Hwp Hres]. split; [done|].
    eapply Forall2_task_insert; [done..|]. simpl. split; [apply Hwp|].
    intros tr2 o s2 Hex. rewrite <- app_assoc. apply Hres. by constructor.
  - destruct Hok as [Hwp Hres]. split; [done|].
    eapply Forall2_task_insert; [done..|]. rewrite Hs. simpl. split; [apply Hwp|].
    intros tr2 o s2 Hex. apply Hres. by constructor.
  - by destruct Hok as [[] _].
  - destruct Hok as [Hwp Hres]. split; [done|].
    eapply Forall2_task_insert; [done..|]. simpl.
    rewrite <- (app_nil_r tr). apply Hres. constructor.
Qed.

Lemma start_batch_inv s1 h1 K urls :
  0 ≤ K → batch_inv s1 K urls (start s1 h1 K urls).
Proof.
  intros HK. unfold batch_inv, start. simpl. rewrite active_queued.
  repeat split; [done|lia|].
  apply Forall2_fmap_r, Forall_Forall2_diag, Forall_forall. by intros.
Qed.

Lemma reachable_batch_inv eng s1 h1 K urls st :
  session_open s1 = true →
  0 ≤ K →
  rtc (step eng) (start s1 h1 K urls) st →
  batch_inv s1 K urls st.
Proof.
  intros Hop HK Hrtc. revert st Hrtc. apply rtc_ind_r.
  - by apply start_batch_inv.
  - intros mid st _ Hstep Hinv. by eapply step_batch_inv.
Qed.

Lemma gathered_Forall2 ts rs :
  gathered ts = Some rs →
  Forall2 (λ t r, ∃ tr, t = Finished (Ok r) tr) ts rs.
Proof.
  revert rs. induction ts as [|[url|p tr|[r|e] tr] ts IH]; intros rs Hg;
    simplify_eq/=; [constructor|].
  destruct (gathered ts) as [rs'|]; simplify_eq/=.
  constructor; [by eexists | by apply IH].
Qed.

Lemma gathered_None ts :
  gathered ts = None →
  ∃ i t, ts !! i = Some t ∧ ∀ r tr, t ≠ Finished (Ok r) tr.
Proof.
  induction ts as [|t ts IH]; [done|]. intros Hg.
  destruct t as [url|p tr|[r|e] tr]; try by (exists 0%nat; eexists; split; [done|]).
  simpl in Hg. destruct (gathered ts); [done|].
  destruct (IH eq_refl) as (i & t & Hi & Ht). by exists (S i), t.
Qed.

Lemma find_running ts :
  (∃ i p tr, ts !! i = Some (Running p tr)) ∨ active ts = 0%nat.
Proof.
  induction ts as [|t ts [(i & p & tr & Hi)|IH]]; [by right| |].
  - left. by exists (S i), p, tr.
  - destruct t as [url|p tr|o tr]; [right|left|right];
      rewrite ?active_cons; try done.
    by exists 0%nat, p, tr.
Qed.

Lemma running_steps eng st i p tr :
  tasks st !! i = Some (Running p tr) → red (step eng) st.
Proof.
  intros Hi. destruct p as [o|c k|k|k|u k]; eexists.
  - by eapply step_release.
  - by eapply step_call.
  - by eapply step_now.
  - by eapply step_self.
  - by eapply step_assign.
Qed.

(** No deadlock: with at least one permit, a batch in which some task has
    not returned can take a step. *)
Lemma batch_progress eng s1 K urls st :
  session_open s1 = true →
  1 ≤ K →
  batch_inv s1 K urls st →
  gathered (tasks st) = None →
  red (step eng) st.
Proof.
  intros Hop HK (Hs & Hpos & Hsem & Hall) Hg.
  destruct (find_running (tasks st)) as [(i & p & tr & Hi)|Hact];
    [by eapply running_steps|].
  destruct (gathered_None _ Hg) as (i & t & Hi & Ht).
  destruct (Forall2_lookup_r _ _ _ _ _ Hall Hi) as (url & Hurl & Hok).
  destruct t as [u|p tr|o tr].
  - eexists. eapply step_acquire; [done|lia].
  - by eapply running_steps.
  - simpl in Hok. destruct (scrape_exec_returns _ _ _ _ _ _ Hop Hok) as [r ->].
    by destruct (Ht r tr).
Qed.

(** Every schedule reaches a state in which all tasks have returned. *)
Lemma batch_completes eng s1 K urls st :
  session_open s1 = true →
  1 ≤ K →
  batch_inv s1 K urls st →
  ∃ st', rtc (step eng) st st' ∧ is_Some (gathered (tasks st')).
Proof.
  intros Hop HK. induction (step_sn eng st) as [st _ IH]. intros Hinv.
  destruct (gathered (tasks st)) as [rs|] eqn:Hg.
  - exists st. split; [done|]. by rewrite Hg.
  - destruct (batch_progress eng _ _ _ _ Hop HK Hinv Hg) as [st2 Hstep].
    destruct (IH st2 Hstep) as (st' & Hrtc & Hdone).
    { by eapply step_batch_inv. }
    exists st'. split; [by eapply rtc_l|done].
Qed.

(** The gathered results are those of the tasks, position by position. *)
Lemma gathered_results s1 urls ts rs :
  Forall2 (task_ok s1) urls ts →
  gathered ts = Some rs →
  length rs = length urls ∧
  ∀ i url, urls !! i = Some url →
    ∃ r tr, rs !! i = Some r ∧ exec (scrape url None) s1 tr (Ok r) s1.
Proof.
  intros Hall Hg%gathered_Forall2. split.
  - by rewrite <- (Forall2_length _ _ _ Hg), (Forall2_length _ _ _ Hall).
  - intros i url Hi.
    destruct (Forall2_lookup_l _ _ _ _ _ Hall Hi) as (t & Ht & Hok).
    destruct (Forall2_lookup_l _ _ _ _ _ Hg Ht) as (r & Hr & tr & ->).
    by exists r, tr.
Qed.

(** *** The batch: whose result is where *)

Lemma answered_snoc eng h tr ev :
  answered eng h tr →
  match ev with
  | Ev c o => o = respond eng (h ++ tr) c
  | Tick t => t = utcnow eng (h ++ tr)
  end →
  answered eng h (tr ++ [ev]).
Proof.
  revert h. induction tr as [|ev' tr IH]; intros h Htr Hev; simpl in *.
  - by rewrite app_nil_r in Hev.
  - destruct Htr as [Hev' Htr]. split; [done|]. apply IH; [done|].
    by rewrite <- app_assoc.
Qed.

(** What the tasks have observed are events of the batch, and the events
    of the batch are the engine's answers. *)
Lemma reachable_observed eng s1 h1 K urls st :
  rtc (step eng) (start s1 h1 K urls) st →
  ∃ hist, history st = h1 ++ hist ∧ answered eng h1 hist ∧
    Forall (λ t, observed t `sublist_of` hist) (tasks st).
Proof.
  revert st. apply rtc_ind_r.
  - exists []. split; [by rewrite app_nil_r|]. split; [done|].
    simpl. apply Forall_fmap, Forall_forall. intros url _. simpl. constructor.
  - intros mid st _ Hstep (hist & Hh & Hans & Hall).
    destruct Hstep as [st i url Hi Hgt|st i c k tr Hi|st i k tr Hi|st i k tr Hi
                      |st i u k tr Hi|st i o tr Hi]; simpl in *.
    + exists hist. split; [done|]. split; [done|].
      apply Forall_insert; [done|]. simpl. apply sublist_nil_l.
    + pose proof (Forall_lookup_1 _ _ _ _ Hall Hi) as Htr. simpl in Htr.
      exists (hist ++ [Ev c (respond eng (history st) c)]).
      split; [by rewrite Hh, app_assoc|].
      split; [apply answered_snoc; [done|]; by rewrite Hh|].
      apply Forall_insert.
      * eapply Forall_impl; [exact Hall|]. intros t Ht. by apply sublist_inserts_r.
      * simpl. by apply sublist_app.
    + pose proof (Forall_lookup_1 _ _ _ _ Hall Hi) as Htr. simpl in Htr.
      exists (hist ++ [Tick (utcnow eng (history st))]).
      split; [by rewrite Hh, app_assoc|].
      split; [apply answered_snoc; [done|]; by rewrite Hh|].
      apply Forall_insert.
      * eapply Forall_impl; [exact Hall|]. intros t Ht. by apply sublist_inserts_r.
      * simpl. by apply sublist_app.
    + pose proof (Forall_lookup_1 _ _ _ _ Hall Hi) as Htr.
      exists hist. split; [done|]. split; [done|]. by apply Forall_insert.
    + pose proof (Forall_lookup_1 _ _ _ _ Hall Hi) as Htr.
      exists hist. split; [done|]. split; [done|]. by apply Forall_insert.
    + pose proof (Forall_lookup_1 _ _ _ _ Hall Hi) as Htr.
      exists hist. split; [done|]. split; [done|]. by apply Forall_insert.
Qed.

Lemma gathered_in_order eng s1 h1 K urls st rs :
  session_open s1 = true →
  0 ≤ K →
  rtc (step eng) (start s1 h1 K urls) st →
  gathered (tasks st) = Some rs →
  results_in_order eng s1 h1 urls st rs.
Proof.
  intros Hop HK Hrtc Hg.
  destruct (reachable_batch_inv _ _ _ _ _ _ Hop HK Hrtc) as (_ & _ & _ & Hall).
  destruct (reachable_observed _ _ _ _ _ _ Hrtc) as (hist & Hh & Hans & Hobs).
  apply gathered_Forall2 in Hg. split.
  - by rewrite <- (Forall2_length _ _ _ Hg), (Forall2_length _ _ _ Hall).
  - exists hist. split; [done|]. split; [done|].
    intros i url Hi.
    destruct (Forall2_lookup_l _ _ _ _ _ Hall Hi) as (t & Ht & Hok).
    destruct (Forall2_lookup_l _ _ _ _ _ Hg Ht) as (r & Hr & tr & ->).
    exists r, tr. split; [done|]. split; [done|].
    split; [|done]. exact (Forall_lookup_1 _ _ _ _ Hobs Ht).
Qed.

(** A running task can be run to its end without another task in between. *)
Lemma running_completes eng (p : fn dict) :
  ∀ st i tr, tasks st !! i = Some (Running p tr) →
    ∃ tr', run eng p (scraper st) (history st)
             = ((run eng p (scraper st) (history st)).1, history st ++ tr') ∧
      rtc (step eng) st
        {| scraper := (run eng p (scraper st) (history st)).1.2;
           history := history st ++ tr';
           sem_value := sem_value st;
           tasks := <[i := Running (Ret (run eng p (scraper st) (history st)).1.1)
                             (tr ++ tr')]> (tasks st) |}.
Proof.
  induction p as [a|c k IH|k IH|k IH|u k IH]; intros st i tr Hi.
  - exists []. simpl. rewrite !app_nil_r. split; [done|].
    rewrite list_insert_id by done. by destruct st.
  - pose proof (step_call eng st i c k tr Hi) as Hstep.
    set (o := respond eng (history st) c) in *.
    set (st1 := {| scraper := scraper st; history := history st ++ [Ev c o];
                   sem_value := sem_value st;
                   tasks := <[i := Running (k o) (tr ++ [Ev c o])]> (tasks st) |})
      in *.
    destruct (IH o st1 i (tr ++ [Ev c o])) as (tr' & E & Hrtc).
    { simpl. apply list_lookup_insert_eq. by eapply lookup_lt_Some. }
    simpl in E, Hrtc. exists (Ev c o :: tr'). simpl. fold o.
    split.
    + rewrite E at 1. by rewrite <- app_assoc.
    + eapply rtc_l; [exact Hstep|].
      rewrite list_insert_insert_eq, <- !app_assoc in Hrtc. exact Hrtc.
  - pose proof (step_now eng st i k tr Hi) as Hstep.
    set (t := utcnow eng (history st)) in *.
    set (st1 := {| scraper := scraper st; history := history st ++ [Tick t];
                   sem_value := sem_value st;
                   tasks := <[i := Running (k t) (tr ++ [Tick t])]> (tasks st) |})
      in *.
    destruct (IH t st1 i (tr ++ [Tick t])) as (tr' & E & Hrtc).
    { simpl. apply list_lookup_insert_eq. by eapply lookup_lt_Some. }
    simpl in E, Hrtc. exists (Tick t :: tr'). simpl. fold t.
    split.
    + rewrite E at 1. by rewrite <- app_assoc.
    + eapply rtc_l; [exact Hstep|].
      rewrite list_insert_insert_eq, <- !app_assoc in Hrtc. exact Hrtc.
  - pose proof (step_self eng st i k tr Hi) as Hstep.
    set (st1 := {| scraper := scraper st; history := history st;
                   sem_value := sem_value st;
                   tasks := <[i := Running (k (scraper st)) tr]> (tasks st) |}) in *.
    destruct (IH (scraper st) st1 i tr) as (tr' & E & Hrtc).
    { simpl. apply list_lookup_insert_eq. by eapply lookup_lt_Some. }
    simpl in E, Hrtc. exists tr'. simpl.
    split; [exact E|].
    eapply rtc_l; [exact Hstep|].
    rewrite list_insert_insert_eq in Hrtc. exact Hrtc.
  - pose proof (step_assign eng st i u k tr Hi) as Hstep.
    set (st1 := {| scraper := u (scraper st); history := history st;
                   sem_value := sem_value st;
                   tasks := <[i := Running k tr]> (tasks st) |}) in *.
    destruct (IH st1 i tr) as (tr' & E & Hrtc).
    { simpl. apply list_lookup_insert_eq. by eapply lookup_lt_Some. }
    simpl in E, Hrtc. exists tr'. simpl.
    split; [exact E|].
    eapply rtc_l; [exact Hstep|].
    rewrite list_insert_insert_eq in Hrtc. exact Hrtc.
Qed.

(** The schedule [run_task] is a schedule of the event loop. *)
Lemma run_task_reachable eng st i : rtc (step eng) st (run_task eng st i).
Proof.
  unfold run_task.
  destruct (tasks st !! i) as [[url|p tr|o tr]|] eqn:Hi; try apply rtc_refl.
  case_bool_decide as Hsem; [|apply rtc_refl].
  eapply rtc_l; [by apply (step_acquire eng st i url)|].
  destruct (running_completes eng (scrape url None)
              {| scraper := scraper st; history := history st;
                 sem_value := sem_value st - 1;
                 tasks := <[i := Running (scrape url None) []]> (tasks st) |} i [])
    as (tr' & E & Hrtc).
  { cbn [tasks]. apply list_lookup_insert_eq. by eapply lookup_lt_Some. }
  cbn [scraper history sem_value tasks app] in E, Hrtc.
  rewrite list_insert_insert_eq in Hrtc.
  etrans; [exact Hrtc|].
  apply rtc_once.
  set (res := run eng (scrape url None) (scraper st) (history st)) in *.
  match goal with
  | |- step _ ?st2 _ =>
      pose proof (step_release eng st2 i res.1.1 tr') as Hstep
  end.
  cbn [scraper history sem_value tasks] in Hstep.
  rewrite list_insert_insert_eq in Hstep.
  replace (drop (length (history st)) res.2) with tr'
    by (rewrite E; cbn [snd]; by rewrite drop_app_length).
  replace res.2 with (history st ++ tr') by (by rewrite E).
  apply Hstep. apply list_lookup_insert_eq. by eapply lookup_lt_Some.
Qed.

Lemma schedule_reachable eng st order :
  rtc (step eng) st (foldl (run_task eng) st order).
Proof.
  revert st. induction order as [|i order IH]; intros st; [apply rtc_refl|].
  simpl. etrans; [apply run_task_reachable | apply IH].
Qed.

(** C1, as the code has it: the batch returns a list only if the session
    can be set up.  Once it is set up, a batch over [urls] with
    [max_concurrent >= 1] returns under every schedule of the event loop
    (no schedule runs forever, and none gets stuck before all tasks have
    returned); what it returns is a list as long as [urls] whose [i]-th
    element is the dict that the task at position [i] returned, by an
    execution of [scrape(urls[i])] whose events are events of this batch,
    each one the answer of the engine at its time, whatever the order in
    which tasks started, interleaved and finished. *)
Theorem scrape_urls_batch_preserves_order eng urls headless K h s1 h1 :
  1 ≤ K →
  run eng __aenter__ (__init__ headless 30000) h = (Ok tt, s1, h1) →
  sn (step eng) (start s1 h1 K urls) ∧
  (∀ st, rtc (step eng) (start s1 h1 K urls) st →
         is_Some (gathered (tasks st)) ∨ red (step eng) st) ∧
  (∃ out, scrape_urls_batch eng urls headless K h out) ∧
  (∀ out, scrape_urls_batch eng urls headless K h out →
     ∃ rs st, out = Ok rs ∧
       rtc (step eng) (start s1 h1 K urls) st ∧
       gathered (tasks st) = Some rs ∧
       results_in_order eng s1 h1 urls st rs ∧
       length rs = length urls ∧
       ∀ i url, urls !! i = Some url →
         ∃ r tr, rs !! i = Some r ∧ exec (scrape url None) s1 tr (Ok r) s1) ∧
  (∀ st rs, rtc (step eng) (start s1 h1 K urls) st →
     gathered (tasks st) = Some rs →
     scrape_urls_batch eng urls headless K h (Ok rs) ∧
     results_in_order eng s1 h1 urls st rs).
Proof.
  intros HK Henter.
  assert (session_open s1 = true) as Hop by by eapply __aenter___opens.
  assert (0 ≤ K) as HK0 by lia.
  split; [apply step_sn|]. split; [|split; [|split]].
  - intros st Hrtc.
    pose proof (reachable_batch_inv _ _ _ _ _ _ Hop HK0 Hrtc) as Hinv.
    destruct (gathered (tasks st)) eqn:Hg; [left; by eexists|right].
    by eapply batch_progress.
  - destruct (batch_completes eng s1 K urls (start s1 h1 K urls) Hop HK)
      as (st & Hrtc & rs & Hg); [by apply start_batch_inv|].
    eexists. by eapply batch_returns.
  - intros out Hout.
    destruct Hout as [e s2 h2 E|s2 h2 E Hneg|s2 h2 st i e tr E _ Hrtc Hi
                     |s2 h2 st rs E _ Hrtc Hg];
      rewrite Henter in E; simplify_eq; [lia|..].
    + destruct (reachable_batch_inv _ _ _ _ _ _ Hop HK0 Hrtc) as (_ & _ & _ & Hall).
      destruct (Forall2_lookup_r _ _ _ _ _ Hall Hi) as (url & Hurl & Hok).
      simpl in Hok. by destruct (scrape_exec_returns _ _ _ _ _ _ Hop Hok).
    + destruct (reachable_batch_inv _ _ _ _ _ _ Hop HK0 Hrtc) as (_ & _ & _ & Hall).
      rewrite __aexit___returns. exists rs, st. split; [done|].
      split; [done|]. split; [done|].
      split; [by eapply gathered_in_order|].
      by eapply gathered_results.
  - intros st rs Hrtc Hg. split; [|by eapply gathered_in_order].
    pose proof (batch_returns eng urls headless K h s1 h1 st rs Henter HK0 Hrtc Hg)
      as Hout.
    by rewrite __aexit___returns in Hout.
Qed.

Lemma scrape_urls_batch_preserves_order_witness :
  let eng := org_not_found in
  let enter := run eng __aenter__ (__init__ true 30000) [] in
  let st := foldl (run_task eng) (start open_scraper enter.2 2 example_urls)
              [1; 2; 0]%nat in
  let rs := default [] (gathered (tasks st)) in
  1 ≤ 2 ∧
  enter = (Ok tt, open_scraper, enter.2) ∧
  rtc (step eng) (start open_scraper enter.2 2 example_urls) st ∧
  gathered (tasks st) = Some rs ∧
  (λ r : dict, r !! "status_code") <$> rs
    = [Some (PInt 200); Some (PInt 404); Some (PInt 200)] ∧
  scrape_urls_batch eng example_urls true 2 [] (Ok rs) ∧
  results_in_order eng open_scraper enter.2 example_urls st rs.
Proof.
  intros eng enter st rs.
  assert (1 ≤ 2) as HK by lia.
  assert (enter = (Ok tt, open_scraper, enter.2)) as E by (vm_compute; reflexivity).
  assert (rtc (step eng) (start open_scraper enter.2 2 example_urls) st) as Hrtc
    by apply schedule_reachable.
  assert (gathered (tasks st) = Some rs) as Hg by (vm_compute; reflexivity).
  split; [exact HK|]. split; [exact E|]. split; [exact Hrtc|].
  split; [exact Hg|]. split; [vm_compute; reflexivity|].
  exact (proj2 (proj2 (proj2 (proj2
           (scrape_urls_batch_preserves_order eng example_urls true 2 []
              open_scraper enter.2 HK E)))) st rs Hrtc Hg).
Defined.

(** When the browser cannot be launched, the batch returns no list: it
    raises the exception of the launch, whatever the URLs and the limit. *)
Lemma batch_raises_when_launch_fails :
  1 ≤ 2 ∧
  scrape_urls_batch launch_fails example_urls true 2 []
    (Raise "Executable doesn't exist") ∧
  ∀ out, scrape_urls_batch launch_fails example_urls true 2 [] out →
    out = Raise "Executable doesn't exist".
Proof.
  split; [lia|]. split.
  - eapply batch_enter_raises. vm_compute. reflexivity.
  - intros out Hout.
    destruct Hout as [e s2 h2 E|s2 h2 E Hneg|s2 h2 st i e tr E _ Hrtc Hi
                     |s2 h2 st rs E _ Hrtc Hg]; vm_compute in E; by simplify_eq.
Qed.

(** *** The batch: open pages *)

Lemma extraction_keeps_page b tr :
  Forall (λ c, extraction_call c = true) (calls tr) →
  foldl page_open_after b tr = b.
Proof.
  revert b. induction tr as [|[c o|t] tr IH]; intros b; [done| |].
  - rewrite calls_Ev. intros [Hc Htr]%Forall_cons. simpl.
    rewrite IH by done. by destruct c.
  - rewrite calls_Tick. intros Htr. simpl. by apply IH.
Qed.

(** An execution of [scrape] leaves no page open. *)
Lemma scrape_closes_its_page url wait_for_selector s tr o s' :
  session_open s = true →
  exec (scrape url wait_for_selector) s tr o s' →
  has_open_page tr = false.
Proof.
  intros Hop Hex. by_wp false. open_session Hop. scrape_exec.
  all: rewrite <- ?app_assoc; cbn [app]; unfold has_open_page.
  all: cbn [foldl page_open_after]; rewrite ?foldl_app;
       rewrite ?extraction_keeps_page by done; done.
Qed.

Lemma pages_open_le_active ts :
  Forall (λ t, holds_page t = true → is_running t = true) ts →
  (pages_open ts ≤ active ts)%nat.
Proof.
  unfold pages_open, active. induction 1 as [|t ts Ht _ IH]; [done|]. simpl.
  destruct (holds_page t), (is_running t); simpl; try lia.
Qed.

Lemma batch_inv_pages s1 K urls st :
  session_open s1 = true →
  batch_inv s1 K urls st →
  Forall (λ t, holds_page t = true → is_running t = true) (tasks st).
Proof.
  intros Hop (_ & _ & _ & Hall). apply Forall_forall. intros t Ht.
  apply list_elem_of_lookup in Ht as [i Hi].
  destruct (Forall2_lookup_r _ _ _ _ _ Hall Hi) as (url & Hurl & Hok).
  destruct t as [u|p tr|o tr]; try done. simpl in *.
  by rewrite (scrape_closes_its_page _ _ _ _ _ _ Hop Hok).
Qed.

Lemma two_active_reachable :
  rtc (step example_engine) (start open_scraper [] 2 example_urls) two_active.
Proof.
  eapply rtc_l.
  { apply (step_acquire _ _ 0%nat "https://example.com"); [reflexivity|simpl; lia]. }
  eapply rtc_l.
  { apply (step_acquire _ _ 1%nat "https://example.org"); [reflexivity|simpl; lia]. }
  apply rtc_refl.
Qed.


(** C4: throughout a batch with [max_concurrent = K], at most [K]
    operations hold the semaphore, that is, are between the start of their
    [scrape] (before it opens its page) and its return (after it closed the
    page); the semaphore's counter is [K] minus their number; when [K]
    operations are active, no step of the event loop lets a waiting one
    start; and, the session being open, at most [K] pages are open at any
    moment, since a task holds an open page only while it holds the
    semaphore. *)
Theorem at_most_max_concurrent_active eng s h K urls st :
  0 ≤ K →
  session_open s = true →
  rtc (step eng) (start s h K urls) st →
  Z.of_nat (active (tasks st)) ≤ K ∧
  sem_value st = K - Z.of_nat (active (tasks st)) ∧
  (∀ st' i url,
     Z.of_nat (active (tasks st)) = K →
     step eng st st' →
     tasks st !! i = Some (Queued url) →
     tasks st' !! i = Some (Queued url)) ∧
  Forall (λ t, holds_page t = true → is_running t = true) (tasks st) ∧
  Z.of_nat (pages_open (tasks st)) ≤ K.
Proof.
  intros HK Hop Hrtc.
  destruct (reachable_sem _ _ _ _ _ _ HK Hrtc) as [Hpos Heq].
  pose proof (reachable_batch_inv _ _ _ _ _ _ Hop HK Hrtc) as Hinv.
  pose proof (batch_inv_pages _ _ _ _ Hop Hinv) as Hpages.
  pose proof (pages_open_le_active _ Hpages).
  split; [lia|]. split; [done|]. split; [|split; [done|lia]].
  intros st' i url Hfull Hstep Hi.
  eapply step_keeps_queued; [done|lia|done].
Qed.

Lemma at_most_max_concurrent_active_witness :
  0 ≤ 2 ∧
  session_open open_scraper = true ∧
  rtc (step example_engine) (start open_scraper [] 2 example_urls) two_active ∧
  Z.of_nat (active (tasks two_active)) ≤ 2 ∧
  sem_value two_active = 2 - Z.of_nat (active (tasks two_active)) ∧
  (∀ st' i url,
     Z.of_nat (active (tasks two_active)) = 2 →
     step example_engine two_active st' →
     tasks two_active !! i = Some (Queued url) →
     tasks st' !! i = Some (Queued url)) ∧
  Forall (λ t, holds_page t = true → is_running t = true) (tasks two_active) ∧
  Z.of_nat (pages_open (tasks two_active)) ≤ 2.
Proof.
  split; [lia|]. split; [reflexivity|]. split; [exact two_active_reachable|].
  apply (at_most_max_concurrent_active example_engine open_scraper [] 2
           example_urls two_active); [lia | reflexivity | exact two_active_reachable].
Defined.

(** *** The entry points return results of [scrape] *)

(** The logic is complete for executions: the strongest postcondition of a
    coroutine is that it has executed. *)
Lemma wp_strongest {A} (p : proc A) s tr :
  wp true p s tr (λ o s' tr', ∃ tr1, tr' = tr ++ tr1 ∧ exec p s tr1 o s').
Proof.
  revert s tr. induction p as [a|c k IH|k IH|k IH|u k IH]; simpl; intros s tr.
  - exists []. split; [by rewrite app_nil_r | constructor].
  - intros o. eapply wp_mono; [|apply IH].
    intros a s' tr' (tr1 & -> & Hex). exists (Ev c o :: tr1).
    split; [by rewrite <- app_assoc | by constructor].
  - intros t. eapply wp_mono; [|apply IH].
    intros a s' tr' (tr1 & -> & Hex). exists (Tick t :: tr1).
    split; [by rewrite <- app_assoc | by constructor].
  - eapply wp_mono; [|apply IH].
    intros a s' tr' (tr1 & -> & Hex). exists tr1. split; [done | by constructor].
  - eapply wp_mono; [|apply IH].
    intros a s' tr' (tr1 & -> & Hex). exists tr1. split; [done | by constructor].
Qed.

(** What [scrape_url] returns was returned by an execution of [scrape], on
    the session that [__aenter__] opened. *)
Lemma scrape_url_returns_scrape_result eng url headless wait_for_selector h r :
  (scrape_url eng url headless wait_for_selector h).1 = Ok r →
  ∃ s tr s', session_open s = true ∧
    exec (scrape url wait_for_selector) s tr (Ok r) s'.
Proof.
  unfold scrape_url.
  destruct (run eng (async_with (scrape url wait_for_selector))
              (__init__ headless 30000) h) as [[o s2] h2] eqn:E.
  simpl. intros ->.
  refine (wp_run_eq true eng _ _ _
            (λ o _ _, ∀ r, o = Ok r → ∃ s tr s', session_open s = true ∧
               exec (scrape url wait_for_selector) s tr (Ok r) s')
            _ _ _ _ E r eq_refl).
  clear E. unfold async_with, __aenter__, __aexit__, _initialize_browser, __init__.
  wp_auto; try (by intros).
  eapply wp_mono; [|apply wp_strongest].
  intros o s' tr' (tr1 & -> & Hex). cbn beta iota. wp_auto.
  apply close_wp. intros tr2 _. cbn beta iota. wp_auto.
  intros r' ->. eexists _, _, _. split; [|exact Hex]. reflexivity.
Qed.

(** When the session cannot be set up, the batch raises the exception of
    the setup and returns nothing. *)
Lemma scrape_urls_batch_setup_failure eng urls headless K h e s1 h1 out :
  run eng __aenter__ (__init__ headless 30000) h = (Raise e, s1, h1) →
  scrape_urls_batch eng urls headless K h out →
  out = Raise e.
Proof.
  intros E Hout.
  destruct Hout as [e' s2 h2 E'|s2 h2 E' _|s2 h2 st i e' tr E' _ _ _
                   |s2 h2 st rs E' _ _ _]; rewrite E in E'; by simplify_eq.
Qed.

Lemma scrape_urls_batch_launch_failure out :
  scrape_urls_batch launch_fails example_urls true 2 [] out →
  out = Raise "Executable doesn't exist".
Proof.
  eapply scrape_urls_batch_setup_failure. vm_compute. reflexivity.
Qed.

(** Every element of a list that a batch returns was returned by an
    execution of [scrape] on one of the URLs, on the batch's open session. *)
Lemma scrape_urls_batch_returns_scrape_results eng urls headless K h rs r :
  scrape_urls_batch eng urls headless K h (Ok rs) →
  r ∈ rs →
  ∃ url s tr, url ∈ urls ∧ session_open s = true ∧
    exec (scrape url None) s tr (Ok r) s.
Proof.
  intros Hout Hr. remember (Ok rs) as out eqn:Hout'.
  destruct Hout as [e s1 h1 E|s1 h1 E Hneg|s1 h1 st i e tr E HK Hrtc Hi
                   |s1 h1 st rs' E HK Hrtc Hg]; try done.
  rewrite __aexit___returns in Hout'. simplify_eq.
  assert (session_open s1 = true) as Hop by by eapply __aenter___opens.
  destruct (reachable_batch_inv _ _ _ _ _ _ Hop HK Hrtc) as (_ & _ & _ & Hall).
  destruct (gathered_results _ _ _ _ Hall Hg) as [Hlen Hres].
  apply list_elem_of_lookup in Hr as [i Hi].
  destruct (lookup_lt_is_Some_2 urls i) as [url Hurl].
  { rewrite <- Hlen. by eapply lookup_lt_Some. }
  destruct (Hres i url Hurl) as (r' & tr & Hr' & Hex).
  exists url, s1, tr. split; [by eapply list_elem_of_lookup_2|].
  split; [done|]. congruence.
Qed.

(** ** More of the module: the session's life cycle *)

(** X1: whatever the state of the object, [_initialize_browser] only makes
    opening calls and keeps [headless] and [timeout].  When it returns, it
    has started the driver, launched the browser on that driver with the
    object's [headless] flag and created one context in that browser with
    the 1920x1080 viewport and the fixed user agent, in that order, and the
    object holds the three handles that these calls returned.  When it
    raises, the exception is that of its last call, the context field is as
    before, and the object holds what the calls before the failing one
    returned: nothing that was started is released or forgotten. *)
Theorem initialize_browser_outcome eng s h :
  ∃ o s' tr,
    run eng _initialize_browser s h = (o, s', h ++ tr) ∧
    headless s' = headless s ∧ timeout s' = timeout s ∧
    Forall (λ c, open_call c = true) (calls tr) ∧
    match o with
    | Ok _ =>
        ∃ pw b c,
          tr = [Ev PlaywrightStart (Ok pw);
                Ev (ChromiumLaunch pw (headless s)) (Ok b);
                Ev (NewContext b 1920 1080 user_agent) (Ok c)] ∧
          calls tr = [PlaywrightStart; ChromiumLaunch pw (headless s);
                      NewContext b 1920 1080 user_agent] ∧
          failures tr = [] ∧
          s' = {| headless := headless s; timeout := timeout s;
                  browser := Some b; context := Some c; playwright := Some pw |}
    | Raise e =>
        (∃ c, failures tr = [(c, e)] ∧ last (calls tr) = Some c) ∧
        context s' = context s ∧
        (tr = [Ev PlaywrightStart (Raise e)] ∧ s' = s ∨
         (∃ pw,
            tr = [Ev PlaywrightStart (Ok pw);
                  Ev (ChromiumLaunch pw (headless s)) (Raise e)] ∧
            s' = {| headless := headless s; timeout := timeout s;
                    browser := browser s; context := context s;
                    playwright := Some pw |}) ∨
         (∃ pw b,
            tr = [Ev PlaywrightStart (Ok pw);
                  Ev (ChromiumLaunch pw (headless s)) (Ok b);
                  Ev (NewContext b 1920 1080 user_agent) (Raise e)] ∧
            s' = {| headless := headless s; timeout := timeout s;
                    browser := Some b; context := context s;
                    playwright := Some pw |}))
    end.
Proof.
  by_wp_run true. clear o s' h'.
  unfold _initialize_browser. wp_auto.
  all: trace_norm h; eexists _, _, _; split; [reflexivity|].
  all: split; [reflexivity|]; split; [reflexivity|]; split; [by repeat constructor|].
  - eexists _, _, _. split; [reflexivity|]. split; [reflexivity|]. split; reflexivity.
  - split; [eexists; split; reflexivity|]. split; [done|]. right. right.
    eexists _, _. split; reflexivity.
  - split; [eexists; split; reflexivity|]. split; [done|]. right. left.
    eexists. split; reflexivity.
  - split; [eexists; split; reflexivity|]. split; [done|]. left. by destruct s.
Qed.

Lemma __aexit___run eng s h :
  ∃ tr, run eng __aexit__ s h = (Ok false, s, h ++ tr) ∧ calls tr = close_calls s.
Proof.
  by_wp_run false. clear o s' h'. unfold __aexit__. wp_auto.
  apply close_wp. intros tr' Htr. cbn beta iota. wp_auto. by exists tr'.
Qed.

(** X2: [async with scraper: block] is a scoped acquisition.  If
    [__aenter__] raises, the block does not run, nothing is closed, and the
    exception propagates.  If [__aenter__] returns, the block runs on the
    opened session, then [close] makes its release calls on the object as
    the block left it, whether the block returned or raised, and the
    outcome of the whole is the outcome of the block: [__aexit__] neither
    swallows the block's exception nor replaces it. *)
Theorem async_with_outcome {A} eng (block : fn A) s h :
  let enter := run eng __aenter__ s h in
  let blk := run eng block enter.1.2 enter.2 in
  match enter.1.1 with
  | Raise e => run eng (async_with block) s h = (Raise e, enter.1.2, enter.2)
  | Ok _ =>
      ∃ tr, run eng (async_with block) s h = (blk.1.1, blk.1.2, blk.2 ++ tr) ∧
        calls tr = close_calls blk.1.2
  end.
Proof.
  intros enter blk.
  unfold async_with, body, mbind, M_bind, bind, try_finally, invoke.
  rewrite !run_bind. fold enter.
  destruct enter as [[[[]|e] s1] h1] eqn:E; cbn [fst snd run] in *; [|done].
  rewrite !run_bind. fold blk. cbn [fst snd run].
  destruct (__aexit___run eng blk.1.2 blk.2) as (tr & Hexit & Hcalls).
  repeat (rewrite ?run_bind, ?Hexit; cbn [fst snd run ret]). by exists tr.
Qed.

Lemma extraction_not_session_call c :
  extraction_call c = true → session_call c = false.
Proof. by destruct c. Qed.

Lemma Forall_extraction_not_session cs :
  Forall (λ c, extraction_call c = true) cs →
  Forall (λ c, session_call c = false) cs.
Proof. intros H. eapply Forall_impl; [exact H | apply extraction_not_session_call]. Qed.

(** On an open session [scrape] neither opens nor releases anything. *)
Lemma scrape_session_calls_wp url wait_for_selector s h :
  session_open s = true →
  wp false (scrape url wait_for_selector) s h (λ o _ h',
    (∃ r, o = Ok r) ∧
    ∃ tr, h' = h ++ tr ∧ Forall (λ c, session_call c = false) (calls tr)).
Proof.
  intros Hop. open_session Hop. scrape_exec.
  all: split; [by eexists|]; trace_norm h; eexists; split; [reflexivity|].
  all: autorewrite with trace;
       repeat first
         [ apply Forall_nil_2
         | apply Forall_cons_2; [done|]
         | apply Forall_app_2; [by apply Forall_extraction_not_session|] ].
Qed.

(** What is known of a [scrape] on an open session, in one statement: it
    returns a dict, leaves the object alone, and makes no session call. *)
Lemma scrape_open_wp url wait_for_selector s h :
  session_open s = true →
  wp true (scrape url wait_for_selector) s h (λ o s' h',
    s' = s ∧ (∃ r, o = Ok r) ∧
    ∃ tr, h' = h ++ tr ∧
      exec (scrape url wait_for_selector) s tr o s ∧
      Forall (λ c, session_call c = false) (calls tr)).
Proof.
  intros Hop.
  eapply wp_mono;
    [|apply wp_conj;
      [apply wp_frozen, (scrape_session_calls_wp url wait_for_selector s h Hop)
      |apply wp_strongest]].
  intros o s' h' [[-> [Hr (tr & -> & Hcalls)]] (tr1 & Heq & Hex)].
  apply app_inv_head in Heq as <-. eauto 10.
Qed.

(** X3: a [scrape_url] that returns has opened one session, run one
    [scrape] on it, and then released exactly what it opened.  Its events
    are the three opening calls, which returned a driver, a browser
    launched on that driver and a context created in that browser; then
    the events of the scrape, run on the object that holds these three
    handles (none of its calls opens or releases a session); then [close]
    on that context, that browser and that driver, in that order.  What it
    returns is the dict that the scrape returned, whatever the release
    calls answered. *)
Theorem scrape_url_closes_what_it_opened eng url headless wait_for_selector h r :
  (scrape_url eng url headless wait_for_selector h).1 = Ok r →
  ∃ pw b c tr_open tr tr_close,
    let s1 := {| headless := headless; timeout := 30000;
                 browser := Some b; context := Some c; playwright := Some pw |} in
    (scrape_url eng url headless wait_for_selector h).2
      = h ++ tr_open ++ tr ++ tr_close ∧
    tr_open = [Ev PlaywrightStart (Ok pw);
               Ev (ChromiumLaunch pw headless) (Ok b);
               Ev (NewContext b 1920 1080 user_agent) (Ok c)] ∧
    calls tr_open = [PlaywrightStart; ChromiumLaunch pw headless;
                     NewContext b 1920 1080 user_agent] ∧
    exec (scrape url wait_for_selector) s1 tr (Ok r) s1 ∧
    Forall (λ c, session_call c = false) (calls tr) ∧
    calls tr_close = [ContextClose c; BrowserClose b; PlaywrightStop pw].
Proof.
  unfold scrape_url.
  destruct (run eng (async_with (scrape url wait_for_selector))
              (__init__ headless 30000) h) as [[o s2] h2] eqn:E.
  simpl. intros ->.
  refine (wp_run_eq true eng _ _ _
            (λ o _ h2, ∀ r, o = Ok r → ∃ pw b c tr_open tr tr_close,
               h2 = h ++ tr_open ++ tr ++ tr_close ∧
               tr_open = [Ev PlaywrightStart (Ok pw);
                          Ev (ChromiumLaunch pw headless) (Ok b);
                          Ev (NewContext b 1920 1080 user_agent) (Ok c)] ∧
               calls tr_open = [PlaywrightStart; ChromiumLaunch pw headless;
                                NewContext b 1920 1080 user_agent] ∧
               exec (scrape url wait_for_selector)
                 {| headless := headless; timeout := 30000;
                    browser := Some b; context := Some c; playwright := Some pw |}
                 tr (Ok r)
                 {| headless := headless; timeout := 30000;
                    browser := Some b; context := Some c; playwright := Some pw |} ∧
               Forall (λ c, session_call c = false) (calls tr) ∧
               calls tr_close = [ContextClose c; BrowserClose b; PlaywrightStop pw])
            _ _ _ _ E r eq_refl).
  clear E. unfold async_with, __aenter__, __aexit__, _initialize_browser, __init__.
  wp_auto; try (by intros).
  eapply wp_mono; [|by apply scrape_open_wp].
  intros o s' h' (-> & _ & tr & -> & Hex & Hcalls). cbn beta iota. wp_auto.
  apply close_wp. intros tr2 Hclose. cbn beta iota. wp_auto.
  intros r' ->. eexists _, _, _, [_; _; _], tr, tr2.
  split; [by rewrite <- !app_assoc|]. by repeat split.
Qed.

Lemma scrape_url_closes_what_it_opened_witness :
  let res := scrape_url fresh_handles "https://example.com" true None [] in
  res.1 = Ok (result_of res.1) ∧
  ∃ pw b c tr_open tr tr_close,
    let s1 := {| headless := true; timeout := 30000;
                 browser := Some b; context := Some c; playwright := Some pw |} in
    res.2 = [] ++ tr_open ++ tr ++ tr_close ∧
    tr_open = [Ev PlaywrightStart (Ok pw);
               Ev (ChromiumLaunch pw true) (Ok b);
               Ev (NewContext b 1920 1080 user_agent) (Ok c)] ∧
    calls tr_open = [PlaywrightStart; ChromiumLaunch pw true;
                     NewContext b 1920 1080 user_agent] ∧
    exec (scrape "https://example.com" None) s1 tr (Ok (result_of res.1)) s1 ∧
    Forall (λ c, session_call c = false) (calls tr) ∧
    calls tr_close = [ContextClose c; BrowserClose b; PlaywrightStop pw].
Proof.
  intros res.
  assert (res.1 = Ok (result_of res.1)) as E by (vm_compute; reflexivity).
  split; [exact E|].
  exact (scrape_url_closes_what_it_opened fresh_handles "https://example.com"
           true None [] (result_of res.1) E).
Defined.

(** X4: [scrape_url] raises only when the session cannot be set up.  The
    exception is then that of the opening call that failed, which is the
    last call made: no page was created, and nothing that had been started
    was stopped, since [__aexit__] does not run when [__aenter__] raises. *)
Theorem scrape_url_raises_only_at_setup eng url headless wait_for_selector h e :
  (scrape_url eng url headless wait_for_selector h).1 = Raise e →
  ∃ tr c,
    (scrape_url eng url headless wait_for_selector h).2 = h ++ tr ∧
    Forall (λ c, open_call c = true) (calls tr) ∧
    failures tr = [(c, e)] ∧
    last (calls tr) = Some c.
Proof.
  unfold scrape_url.
  destruct (run eng (async_with (scrape url wait_for_selector))
              (__init__ headless 30000) h) as [[o s2] h2] eqn:E.
  simpl. intros ->.
  refine (wp_run_eq true eng _ _ _
            (λ o _ h2, ∀ e, o = Raise e → ∃ tr c,
               h2 = h ++ tr ∧
               Forall (λ c, open_call c = true) (calls tr) ∧
               failures tr = [(c, e)] ∧ last (calls tr) = Some c)
            _ _ _ _ E e eq_refl).
  clear E. unfold async_with, __aenter__, __aexit__, _initialize_browser, __init__.
  wp_auto.
  2-4: intros e' [= <-]; trace_norm h; eexists _, _;
       split; [reflexivity|]; split; [by repeat constructor|]; by split.
  eapply wp_mono; [|by apply scrape_open_wp].
  intros o s' h' (-> & [r ->] & _). cbn beta iota. wp_auto.
  apply close_wp. intros tr2 Hclose. cbn beta iota. wp_auto. by intros.
Qed.

Lemma scrape_url_raises_only_at_setup_witness :
  let res := scrape_url launch_fails "https://example.com" true None [] in
  res.1 = Raise "Executable doesn't exist" ∧
  ∃ tr c,
    res.2 = [] ++ tr ∧
    Forall (λ c, open_call c = true) (calls tr) ∧
    failures tr = [(c, "Executable doesn't exist")] ∧
    last (calls tr) = Some c.
Proof.
  intros res.
  assert (res.1 = Raise "Executable doesn't exist") as E by (vm_compute; reflexivity).
  split; [exact E|].
  exact (scrape_url_raises_only_at_setup launch_fails "https://example.com"
           true None [] _ E).
Defined.

Lemma _initialize_browser_opens eng s h s1 h1 :
  run eng _initialize_browser s h = (Ok tt, s1, h1) → session_open s1 = true.
Proof.
  intros E.
  refine (wp_run_eq true eng _initialize_browser s h
            (λ o s2 _, ∀ u, o = Ok u → session_open s2 = true) _ _ _ _ E tt eq_refl).
  clear E. unfold _initialize_browser. wp_auto; by intros.
Qed.

Lemma scrape_run_guard eng url wait_for_selector s h :
  run eng (scrape url wait_for_selector) s h =
  run eng
    (body {| page := None; result := ∅ |} (
      (if negb (truthy (browser s)) || negb (truthy (context s))
       then invoke _initialize_browser
       else ret tt);;
      set_page None;;
      timestamp ← now;
      modify (λ l, {| page := page l; result := initial_result url timestamp |});;
      try_finally
        (try_except (scrape_try url wait_for_selector) scrape_except)
        scrape_finally;;
      gets result)) s h.
Proof. reflexivity. Qed.

Lemma run_invoke_then {L A} eng (f : fn unit) (K : M L A) l0 s h :
  run eng (body l0 (invoke f;; K)) s h =
  match (run eng f s h).1.1 with
  | Ok _ => run eng (body l0 (ret tt;; K)) (run eng f s h).1.2 (run eng f s h).2
  | Raise e => (Raise e, (run eng f s h).1.2, (run eng f s h).2)
  end.
Proof.
  unfold body, mbind, M_bind, bind, invoke, ret. rewrite !run_bind.
  destruct (run eng f s h) as [[[[]|e] s1] h1]; cbn [fst snd run];
    rewrite ?run_bind; reflexivity.
Qed.

(** X5: on an object whose session is not open, [scrape] first runs
    [_initialize_browser], outside its [try].  If that raises, [scrape]
    raises the same exception, having made only the opening calls, and
    returns no result.  If it returns, [scrape] goes on exactly as a
    [scrape] on the session just opened, and leaves that session open: the
    object keeps the new handles and nothing is released. *)
Theorem scrape_opens_lazily eng url wait_for_selector s h :
  session_open s = false →
  let init := run eng _initialize_browser s h in
  match init.1.1 with
  | Raise e =>
      run eng (scrape url wait_for_selector) s h = (Raise e, init.1.2, init.2)
  | Ok _ =>
      session_open init.1.2 = true ∧
      run eng (scrape url wait_for_selector) s h =
        run eng (scrape url wait_for_selector) init.1.2 init.2 ∧
      (run eng (scrape url wait_for_selector) s h).1.2 = init.1.2
  end.
Proof.
  intros Hcl init.
  assert (negb (truthy (browser s)) || negb (truthy (context s)) = true) as Hg.
  { unfold session_open in Hcl. by destruct (browser s), (context s). }
  rewrite !(scrape_run_guard eng url wait_for_selector s h), Hg, run_invoke_then.
  fold init. destruct init as [[[[]|e] s1] h1] eqn:E; cbn [fst snd]; [|done].
  assert (session_open s1 = true) as Hop by by eapply _initialize_browser_opens.
  assert (run eng (scrape url wait_for_selector) s1 h1 =
          run eng (body {| page := None; result := ∅ |} (
            ret tt;;
            set_page None;;
            timestamp ← now;
            modify (λ l, {| page := page l;
                            result := initial_result url timestamp |});;
            try_finally
              (try_except (scrape_try url wait_for_selector) scrape_except)
              scrape_finally;;
            gets result)) s1 h1) as Hrun.
  { rewrite scrape_run_guard.
    apply session_open_inv in Hop as (b & c & -> & ->). reflexivity. }
  split; [done|]. rewrite <- Hrun. split; [done|].
  eapply wp_false_run, scrape_frozen, Hop.
Qed.

Lemma scrape_opens_lazily_witness :
  let s := __init__ true 30000 in
  let init := run example_engine _initialize_browser s [] in
  session_open s = false ∧
  match init.1.1 with
  | Raise e =>
      run example_engine (scrape "https://example.com" None) s []
        = (Raise e, init.1.2, init.2)
  | Ok _ =>
      session_open init.1.2 = true ∧
      run example_engine (scrape "https://example.com" None) s [] =
        run example_engine (scrape "https://example.com" None) init.1.2 init.2 ∧
      (run example_engine (scrape "https://example.com" None) s []).1.2 = init.1.2
  end.
Proof.
  intros s init. split; [reflexivity|].
  apply (scrape_opens_lazily example_engine "https://example.com" None s []).
  reflexivity.
Defined.

(** ** More of the module: the metadata extractor *)

Lemma ticks_app tr1 tr2 : ticks (tr1 ++ tr2) = ticks tr1 ++ ticks tr2.
Proof. apply omap_app. Qed.
Lemma ticks_Ev c o tr : ticks (Ev c o :: tr) = ticks tr.
Proof. done. Qed.
Lemma ticks_Tick t tr : ticks (Tick t :: tr) = t :: ticks tr.
Proof. done. Qed.
Lemma ticks_nil : ticks [] = [].
Proof. done. Qed.

#[global] Hint Rewrite ticks_app ticks_Ev ticks_Tick ticks_nil : trace.

Lemma last_calls_snoc tr c o : last (calls (tr ++ [Ev c o])) = Some c.
Proof. by rewrite calls_app, calls_Ev, calls_nil, last_snoc. Qed.

(** The loop reads no clock, and if it ends by an exception, the query that
    raised it is the last call. *)
Lemma for_meta_tags_trace_wp w tags m s tr Q :
  (∀ o m' tr',
     ticks tr' = [] →
     match o with
     | Ok _ => failures tr' = []
     | Raise e => ∃ c, failures tr' = [(c, e)] ∧ last (calls tr') = Some c
     end →
     Q o m' s (tr ++ tr')) →
  mwp w (for_meta_tags tags) m s tr Q.
Proof.
  revert m tr Q. induction tags as [|meta rest IH]; intros m tr Q HQ.
  - apply mwp_ret. trace_norm tr. by apply HQ.
  - cbn [for_meta_tags]. wp_auto.
    1-3: apply IH; intros o m' tr' Ht Hf; trace_norm tr; apply HQ;
      [exact Ht|]; destruct o as [[]|e]; [exact Hf|];
      destruct Hf as (c & Hf & Hl); exists c; split; [exact Hf|];
      autorewrite with trace; rewrite !last_cons, Hl; done.
    all: trace_norm tr; apply HQ; [done|]; by eexists.
Qed.

Lemma _extract_metadata_trace_wp w pg s tr Q :
  (∀ m tr',
     ticks tr' = [] →
     (failures tr' = [] ∨ ∃ c e, failures tr' = [(c, e)] ∧ last (calls tr') = Some c) →
     Q (Ok m) s (tr ++ tr')) →
  wp w (_extract_metadata pg) s tr Q.
Proof.
  intros HQ. unfold _extract_metadata, extract_try. wp_auto.
  { apply for_meta_tags_trace_wp. intros [[]|e] m' tr' Ht Hf; cbn beta iota.
    2: destruct Hf as (c & Hf & Hl).
    all: wp_auto; trace_norm tr; apply HQ.
    all: autorewrite with trace; rewrite ?Ht, ?Hf; cbn [app].
    all: try done.
    all: try by left.
    all: right; eexists _, _; split; [reflexivity|].
    all: rewrite ?last_cons, ?last_app; cbn [last]; try done.
    by rewrite Hl. }
  trace_norm tr. apply HQ; [done|]. right. by eexists _, _.
Qed.

(** All that is known of a call of the extractor. *)
Lemma _extract_metadata_full_wp w pg s tr Q :
  (∀ m tr', extract_post m tr' → extraction_trace tr' → Q (Ok m) s (tr ++ tr')) →
  wp w (_extract_metadata pg) s tr Q.
Proof.
  intros HQ.
  eapply wp_mono;
    [|apply wp_conj;
      [apply (_extract_metadata_wp w pg s tr
                (λ o s' h', ∃ m tr', o = Ok m ∧ s' = s ∧ h' = tr ++ tr' ∧
                                     extract_post m tr'))
      |apply (_extract_metadata_trace_wp w pg s tr
                (λ o s' h', ∃ tr', h' = tr ++ tr' ∧ ticks tr' = [] ∧
                   (failures tr' = [] ∨
                    ∃ c e, failures tr' = [(c, e)] ∧ last (calls tr') = Some c)))]].
  - intros o s' h' [(m & tr1 & -> & -> & -> & Hpost) (tr2 & Heq & Ht & Hf)].
    apply app_inv_head in Heq as <-. apply HQ; [done|].
    destruct Hpost as (Hc & _ & _). by repeat split.
  - intros m tr' Hpost. by eexists _, _.
  - intros m tr' Ht Hf. by eexists.
Qed.

(** X6: [_extract_metadata] never raises and never touches the scraper
    object, whatever the engine does.  It only queries the DOM, and it stops
    at the first query that raises: at most one query fails, it is the last
    call made, and its message is then found under [extraction_error]. *)
Theorem extract_metadata_never_raises eng pg s h :
  ∃ m tr,
    run eng (_extract_metadata pg) s h = (Ok m, s, h ++ tr) ∧
    Forall (λ c, extraction_call c = true) (calls tr) ∧
    (failures tr = [] ∨
     ∃ c e, failures tr = [(c, e)] ∧ last (calls tr) = Some c ∧
            m !! "extraction_error" = Some (Some e)).
Proof.
  by_wp_run false. clear o s' h'.
  apply _extract_metadata_full_wp.
  intros m tr (Hc & Hpost & _) (_ & _ & Hlast).
  exists m, tr. split; [done|]. split; [done|].
  destruct Hlast as [Hf|(c & e & Hf & Hl)]; [by left|right].
  exists c, e. split; [done|]. split; [done|].
  destruct Hpost as [Hf'|(c' & e' & Hf' & Hm)]; [congruence|]. congruence.
Qed.

(** ** More of the module: the steps of [scrape] *)

(** The DOM queries of the extractor open and close no page, read no
    content, await no selector, navigate nowhere and set no timeout. *)
Lemma extraction_steps tr :
  Forall (λ c, extraction_call c = true) (calls tr) →
  opened_pages tr = [] ∧ contents tr = [] ∧ closed_pages tr = [] ∧
  waits tr = [] ∧ navigations tr = [] ∧ timeouts tr = [].
Proof.
  unfold opened_pages, contents, closed_pages, waits, navigations, timeouts.
  induction tr as [|[c o|t] tr IH]; [done| |].
  - rewrite calls_Ev. intros [Hc Htr]%Forall_cons.
    destruct (IH Htr) as (H1 & H2 & H3 & H4 & H5 & H6). cbn [omap list_omap].
    rewrite H1, H2, H3, H4, H5, H6. by destruct c.
  - rewrite calls_Tick. intros Htr. cbn [omap list_omap opened_page_of content_of].
    by apply IH.
Qed.

Ltac scrape_step_full :=
  first
    [ wp_step
    | apply _extract_metadata_full_wp; intros ? ? (? & ? & ?) (_ & ? & ?) ].

Ltac scrape_exec_full :=
  unfold scrape, scrape_try, scrape_except, scrape_finally, set_item, set_page;
  repeat scrape_step_full.

Ltac steps_simpl :=
  repeat
    match goal with
    | H : Forall (λ c, extraction_call c = true) (calls ?tr) |- _ =>
        destruct (extraction_steps tr H) as (? & ? & ? & ? & ? & ?); clear H
    end;
  unfold opened_pages, contents, closed_pages, waits, navigations, timeouts in *;
  autorewrite with trace;
  repeat first
    [ progress cbn [omap list_omap opened_page_of content_of closed_page_of
                    wait_of navigation_of timeout_of app]
    | rewrite omap_app
    | match goal with H : omap _ _ = [] |- _ => rewrite H end
    | match goal with H : ticks _ = [] |- _ => rewrite H end ].

(** X7: on an open session [scrape] first asks the context for a new page.
    If that call raises, nothing else is called and the result is a failure.
    Otherwise exactly one page is opened, and on every path (success, a
    failure at any later step, even a failure of the close itself) [close]
    is called on that page, once, as the very last call. *)
Theorem scrape_page_lifecycle eng url wait_for_selector s h :
  session_open s = true →
  ∃ r tr c,
    run eng (scrape url wait_for_selector) s h = (Ok r, s, h ++ tr) ∧
    context s = Some c ∧
    head (calls tr) = Some (NewPage c) ∧
    match opened_pages tr with
    | [] => calls tr = [NewPage c] ∧ r !! "success" = Some (PBool false)
    | pg :: rest =>
        rest = [] ∧ closed_pages tr = [pg] ∧ last (calls tr) = Some (PageClose pg)
    end.
Proof.
  intros Hop. by_wp_run false. clear o s' h'.
  open_session Hop. scrape_exec_full.
  all: trace_norm h; eexists _, _, _; split; [reflexivity|]; split; [reflexivity|].
  all: split; [by autorewrite with trace|].
  all: steps_simpl.
  all: repeat split; try done.
  all: try by dict_lookup.
  all: by rewrite ?last_cons, ?last_snoc.
Qed.

Lemma scrape_page_lifecycle_witness :
  session_open open_scraper = true ∧
  ∃ r tr c,
    run selector_times_out (scrape "https://example.com" (Some "h1")) open_scraper []
      = (Ok r, open_scraper, [] ++ tr) ∧
    context open_scraper = Some c ∧
    head (calls tr) = Some (NewPage c) ∧
    match opened_pages tr with
    | [] => calls tr = [NewPage c] ∧ r !! "success" = Some (PBool false)
    | pg :: rest =>
        rest = [] ∧ closed_pages tr = [pg] ∧ last (calls tr) = Some (PageClose pg)
    end.
Proof.
  split; [reflexivity|].
  apply (scrape_page_lifecycle selector_times_out "https://example.com" (Some "h1")
           open_scraper []).
  reflexivity.
Defined.

(** X8: on an open session, every page that [scrape] opens gets the
    scraper's timeout as its default timeout, and a navigation, if there is
    one, is the third call: after the page was opened and its timeout was
    set, [goto] is called once, on that page, with the URL that was passed
    in and [wait_until = networkidle].  A scrape that succeeds has
    navigated. *)
Theorem scrape_navigates_with_timeout eng url wait_for_selector s h :
  session_open s = true →
  ∃ r tr,
    run eng (scrape url wait_for_selector) s h = (Ok r, s, h ++ tr) ∧
    timeouts tr = (λ pg, (pg, timeout s)) <$> opened_pages tr ∧
    (navigations tr = [] ∨
     ∃ c pg rest,
       opened_pages tr = [pg] ∧
       navigations tr = [(pg, url, "networkidle")] ∧
       calls tr = NewPage c :: SetDefaultTimeout pg (timeout s)
                    :: Goto pg url "networkidle" :: rest) ∧
    (r !! "success" = Some (PBool true) → navigations tr ≠ []).
Proof.
  intros Hop. by_wp_run false. clear o s' h'.
  open_session Hop. scrape_exec_full.
  all: trace_norm h; eexists _, _; split; [reflexivity|].
  all: split; [by steps_simpl|].
  all: split; [|by steps_simpl; dict_lookup].
  all: first [ by left; steps_simpl
             | right; eexists _, _, _; split; [by steps_simpl|];
               split; [by steps_simpl|]; autorewrite with trace; reflexivity ].
Qed.

Lemma scrape_navigates_with_timeout_witness :
  session_open open_scraper = true ∧
  ∃ r tr,
    run example_engine (scrape "https://example.com" None) open_scraper []
      = (Ok r, open_scraper, [] ++ tr) ∧
    timeouts tr = (λ pg, (pg, timeout open_scraper)) <$> opened_pages tr ∧
    (navigations tr = [] ∨
     ∃ c pg rest,
       opened_pages tr = [pg] ∧
       navigations tr = [(pg, "https://example.com", "networkidle")] ∧
       calls tr = NewPage c :: SetDefaultTimeout pg (timeout open_scraper)
                    :: Goto pg "https://example.com" "networkidle" :: rest) ∧
    (r !! "success" = Some (PBool true) → navigations tr ≠ []).
Proof.
  split; [reflexivity|].
  apply (scrape_navigates_with_timeout example_engine "https://example.com" None
           open_scraper []).
  reflexivity.
Defined.

(** X9: [scrape] awaits a selector only if one was passed that is not the
    empty string, and then at most once and for exactly that selector.
    Whenever the content of the page is read, the wait has been made if and
    only if such a selector was passed: the content is never read before
    the selector has appeared. *)
Theorem scrape_waits_for_selector eng url wait_for_selector s h :
  session_open s = true →
  ∃ r tr,
    run eng (scrape url wait_for_selector) s h = (Ok r, s, h ++ tr) ∧
    (waits tr = [] ∨
     truthy_str wait_for_selector = true ∧
     waits tr = [default EmptyString wait_for_selector]) ∧
    ∀ pg, Content pg ∈ calls tr →
      waits tr = (if truthy_str wait_for_selector
                  then [default EmptyString wait_for_selector] else []) ∧
      ∀ sel e, (WaitForSelector pg sel, e) ∉ failures tr.
Proof.
  intros Hop. by_wp_run false. clear o s' h'.
  open_session Hop. scrape_exec_full.
  all: trace_norm h; eexists _, _; split; [reflexivity|].
  all: split; [first [by left; steps_simpl | by right; steps_simpl]|].
  all: intros pg Hin; autorewrite with trace in Hin.
  all: rewrite ?elem_of_cons, ?elem_of_nil in Hin.
  all: try by (destruct_or?; simplify_eq).
  all: clear Hin.
  all: split;
    [by repeat match goal with H : truthy_str _ = _ |- _ => rewrite H; clear H end;
        steps_simpl|].
  all: intros sel ex Hin; autorewrite with trace in Hin.
  all: rewrite ?elem_of_app, ?elem_of_cons, ?elem_of_nil in Hin.
  all: destruct_or?; simplify_eq.
  all: by (exfalso; eauto using extraction_failures_not_scrape).
Qed.

Lemma scrape_waits_for_selector_witness :
  session_open open_scraper = true ∧
  ∃ r tr,
    run example_engine (scrape "https://example.com" (Some "h1")) open_scraper []
      = (Ok r, open_scraper, [] ++ tr) ∧
    (waits tr = [] ∨
     truthy_str (Some "h1") = true ∧ waits tr = [default EmptyString (Some "h1")]) ∧
    ∀ pg, Content pg ∈ calls tr →
      waits tr = (if truthy_str (Some "h1")
                  then [default EmptyString (Some "h1")] else []) ∧
      ∀ sel e, (WaitForSelector pg sel, e) ∉ failures tr.
Proof.
  split; [reflexivity|].
  apply (scrape_waits_for_selector example_engine "https://example.com" (Some "h1")
           open_scraper []).
  reflexivity.
Defined.

(** X10: where the [status_code], [html] and [title] of a result come
    from.  Each is [None] unless the corresponding read returned: the status
    of the navigation's response, the content of the page, the title of the
    page.  This holds for failures as for successes: a result keeps what was
    read before the step that failed. *)
Theorem scrape_fields_are_what_was_read eng url wait_for_selector s h :
  session_open s = true →
  ∃ r tr,
    run eng (scrape url wait_for_selector) s h = (Ok r, s, h ++ tr) ∧
    r !! "status_code" =
      Some (match responses tr with
            | response :: _ => PInt (status response)
            | [] => PNone
            end) ∧
    r !! "html" =
      Some (match contents tr with html :: _ => PStr html | [] => PNone end) ∧
    r !! "title" =
      Some (match titles tr with title :: _ => PStr title | [] => PNone end).
Proof.
  intros Hop. by_wp_run false. clear o s' h'.
  open_session Hop. scrape_exec_full.
  all: trace_norm h; eexists _, _; split; [reflexivity|].
  all: split; [by reads_simpl; dict_lookup|].
  all: split; [by steps_simpl; dict_lookup|].
  all: by reads_simpl; dict_lookup.
Qed.

Lemma scrape_fields_are_what_was_read_witness :
  session_open open_scraper = true ∧
  ∃ r tr,
    run title_fails (scrape "https://example.com" None) open_scraper []
      = (Ok r, open_scraper, [] ++ tr) ∧
    r !! "status_code" =
      Some (match responses tr with
            | response :: _ => PInt (status response)
            | [] => PNone
            end) ∧
    r !! "html" =
      Some (match contents tr with html :: _ => PStr html | [] => PNone end) ∧
    r !! "title" =
      Some (match titles tr with title :: _ => PStr title | [] => PNone end).
Proof.
  split; [reflexivity|].
  apply (scrape_fields_are_what_was_read title_fails "https://example.com" None
           open_scraper []).
  reflexivity.
Defined.

(** X11: on an open session [scrape] reads the clock exactly once, before
    it makes any call, and the [timestamp] of the result is that reading:
    the time at which the scrape began, not the time at which the page was
    loaded or the result returned. *)
Theorem scrape_timestamp_is_taken_first eng url wait_for_selector s h :
  session_open s = true →
  ∃ r tr t,
    run eng (scrape url wait_for_selector) s h = (Ok r, s, h ++ tr) ∧
    head tr = Some (Tick t) ∧
    ticks tr = [t] ∧
    r !! "timestamp" = Some (PStr t).
Proof.
  intros Hop. by_wp_run false. clear o s' h'.
  open_session Hop. scrape_exec_full.
  all: trace_norm h; eexists _, _, _; split; [reflexivity|].
  all: split; [reflexivity|].
  all: split; [|by dict_lookup].
  all: autorewrite with trace;
       repeat match goal with H : ticks _ = [] |- _ => rewrite H; clear H end;
       done.
Qed.

Lemma scrape_timestamp_is_taken_first_witness :
  session_open open_scraper = true ∧
  ∃ r tr t,
    run example_engine (scrape "https://example.com" None) open_scraper []
      = (Ok r, open_scraper, [] ++ tr) ∧
    head tr = Some (Tick t) ∧
    ticks tr = [t] ∧
    r !! "timestamp" = Some (PStr t).
Proof.
  split; [reflexivity|].
  apply (scrape_timestamp_is_taken_first example_engine "https://example.com" None
           open_scraper []).
  reflexivity.
Defined.

(** X12: the extractor is the last step of [scrape] and runs only when
    everything before it went through.  A result that is a failure has no
    title and an empty [meta], and not a single DOM query was made for it. *)
Theorem scrape_failure_skips_extraction eng url wait_for_selector s h :
  session_open s = true →
  ∃ r tr,
    run eng (scrape url wait_for_selector) s h = (Ok r, s, h ++ tr) ∧
    (r !! "success" = Some (PBool false) →
     r !! "title" = Some PNone ∧
     r !! "meta" = Some (PDict ∅) ∧
     Forall (λ c, extraction_call c = false) (calls tr)).
Proof.
  intros Hop. by_wp_run false. clear o s' h'.
  open_session Hop. scrape_exec_full.
  all: trace_norm h; eexists _, _; split; [reflexivity|].
  all: intros Hs; revert Hs; dict_lookup; try done; intros _.
  all: split; [by dict_lookup|]; split; [by dict_lookup|].
  all: autorewrite with trace; repeat (apply Forall_cons_2; [done|]).
  all: by apply Forall_nil_2.
Qed.

Lemma scrape_failure_skips_extraction_witness :
  session_open open_scraper = true ∧
  ∃ r tr,
    run title_fails (scrape "https://example.com" None) open_scraper []
      = (Ok r, open_scraper, [] ++ tr) ∧
    (r !! "success" = Some (PBool false) →
     r !! "title" = Some PNone ∧
     r !! "meta" = Some (PDict ∅) ∧
     Forall (λ c, extraction_call c = false) (calls tr)).
Proof.
  split; [reflexivity|].
  apply (scrape_failure_skips_extraction title_fails "https://example.com" None
           open_scraper []).
  reflexivity.
Defined.

(** Split an explicit list of calls before its last or last but one call. *)
Ltac split_calls :=
  let finish := (first [by left | by right; eexists]) in
  first
    [ eexists []; finish
    | eexists [_]; finish
    | eexists [_; _]; finish
    | eexists [_; _; _]; finish
    | eexists [_; _; _; _]; finish
    | eexists [_; _; _; _; _]; finish
    | eexists [_; _; _; _; _; _]; finish ].

(** X20: [scrape] stops at the first step that fails.  When page creation,
    the timeout setting, navigation, the URL read, the selector wait, or the
    content or title read raises, no later step of the scrape is attempted:
    the failing call is the last one, or it is followed by the close of the
    page and by nothing else.  At most one of these steps fails in a
    scrape. *)
Theorem scrape_stops_at_first_failure eng url wait_for_selector s h :
  session_open s = true →
  ∃ r tr,
    run eng (scrape url wait_for_selector) s h = (Ok r, s, h ++ tr) ∧
    ∀ c e, (c, e) ∈ failures tr → scrape_call c = true →
      (∃ before, calls tr = before ++ [c] ∨
                 ∃ pg, calls tr = before ++ [c; PageClose pg]) ∧
      ∀ c' e', (c', e') ∈ failures tr → scrape_call c' = true →
        c' = c ∧ e' = e.
Proof.
  intros Hop. by_wp_run false. clear o s' h'.
  open_session Hop. scrape_exec_full.
  all: trace_norm h; eexists _, _; split; [reflexivity|].
  all: intros cx ex Hin Hsc; autorewrite with trace in Hin.
  all: rewrite ?elem_of_app, ?elem_of_cons, ?elem_of_nil in Hin.
  all: destruct_or?; simplify_eq; try done.
  all: try by (exfalso; eauto using extraction_failures_not_scrape).
  all: split; [autorewrite with trace; split_calls|].
  all: intros cy ey Hin Hsc'; autorewrite with trace in Hin.
  all: rewrite ?elem_of_app, ?elem_of_cons, ?elem_of_nil in Hin.
  all: destruct_or?; simplify_eq; done.
Qed.

Lemma scrape_stops_at_first_failure_witness :
  session_open open_scraper = true ∧
  ∃ r tr,
    run selector_times_out (scrape "https://example.com" (Some "h1")) open_scraper []
      = (Ok r, open_scraper, [] ++ tr) ∧
    ∀ c e, (c, e) ∈ failures tr → scrape_call c = true →
      (∃ before, calls tr = before ++ [c] ∨
                 ∃ pg, calls tr = before ++ [c; PageClose pg]) ∧
      ∀ c' e', (c', e') ∈ failures tr → scrape_call c' = true →
        c' = c ∧ e' = e.
Proof.
  split; [reflexivity|].
  apply (scrape_stops_at_first_failure selector_times_out "https://example.com"
           (Some "h1") open_scraper []).
  reflexivity.
Defined.

(** ** More of the module: a scraper that was closed *)

Lemma close_run eng s h :
  ∃ tr, run eng close s h = (Ok tt, s, h ++ tr) ∧ calls tr = close_calls s.
Proof.
  by_wp_run false. clear o s' h'.
  apply close_wp. intros tr' Htr. by exists tr'.
Qed.

(** X13: [close] releases the session but does not forget it.  A [scrape]
    on a scraper that was closed therefore does not open a new session: its
    first call asks the released context for a page, and it starts no
    driver, launches no browser and creates no context. *)
Theorem scrape_after_close_reuses_session eng url wait_for_selector s h :
  session_open s = true →
  let closed := run eng close s h in
  ∃ tr_close r tr c,
    closed = (Ok tt, s, h ++ tr_close) ∧
    calls tr_close = close_calls s ∧
    run eng (scrape url wait_for_selector) closed.1.2 closed.2
      = (Ok r, s, h ++ tr_close ++ tr) ∧
    context s = Some c ∧
    ContextClose c ∈ calls tr_close ∧
    head (calls tr) = Some (NewPage c) ∧
    Forall (λ c, open_call c = false) (calls tr).
Proof.
  intros Hop closed. subst closed.
  destruct (close_run eng s h) as (tr_close & -> & Hclose).
  exists tr_close. cbn [fst snd].
  assert (∃ r tr c,
    run eng (scrape url wait_for_selector) s (h ++ tr_close)
      = (Ok r, s, (h ++ tr_close) ++ tr) ∧
    context s = Some c ∧
    head (calls tr) = Some (NewPage c) ∧
    Forall (λ c, open_call c = false) (calls tr)) as (r & tr & c & E & Hc & Hhd & Hall).
  { clear Hclose. generalize (h ++ tr_close). clear h tr_close. intros h.
    by_wp_run false. clear o s' h'.
    open_session Hop. scrape_exec.
    all: trace_norm h; eexists _, _, _; split; [reflexivity|];
         split; [reflexivity|].
    all: autorewrite with trace; split; [reflexivity|].
    all: repeat first
           [ apply Forall_nil_2
           | apply Forall_cons_2; [done|]
           | apply Forall_app_2; [by apply Forall_extraction_not_open|] ]. }
  exists r, tr, c. rewrite E, <- app_assoc. repeat split; try done.
  rewrite Hclose. unfold close_calls. rewrite Hc. set_solver.
Qed.

Lemma scrape_after_close_reuses_session_witness :
  session_open open_scraper = true ∧
  let closed := run example_engine close open_scraper [] in
  ∃ tr_close r tr c,
    closed = (Ok tt, open_scraper, [] ++ tr_close) ∧
    calls tr_close = close_calls open_scraper ∧
    run example_engine (scrape "https://example.com" None) closed.1.2 closed.2
      = (Ok r, open_scraper, [] ++ tr_close ++ tr) ∧
    context open_scraper = Some c ∧
    ContextClose c ∈ calls tr_close ∧
    head (calls tr) = Some (NewPage c) ∧
    Forall (λ c, open_call c = false) (calls tr).
Proof.
  split; [reflexivity|].
  apply (scrape_after_close_reuses_session example_engine "https://example.com" None
           open_scraper []).
  reflexivity.
Defined.

(** ** More of the module: the batch *)

(** A coroutine can always be run to its end: the engine may answer every
    call by an exception. *)
Lemma exec_exists {A} (p : proc A) s : ∃ tr a s', exec p s tr a s'.
Proof.
  revert s. induction p as [a|c k IH|k IH|k IH|u k IH]; intros s.
  - eexists _, _, _. constructor.
  - destruct (IH (Raise EmptyString) s) as (tr & a & s' & Hex).
    eexists _, _, _. constructor. exact Hex.
  - destruct (IH EmptyString s) as (tr & a & s' & Hex).
    eexists _, _, _. constructor. exact Hex.
  - destruct (IH s s) as (tr & a & s' & Hex).
    eexists _, _, _. constructor. exact Hex.
  - destruct (IH (u s)) as (tr & a & s' & Hex).
    eexists _, _, _. constructor. exact Hex.
Qed.

Lemma scrape_exec_session_calls url wait_for_selector s tr o s' :
  session_open s = true →
  exec (scrape url wait_for_selector) s tr o s' →
  Forall (λ c, session_call c = false) (calls tr).
Proof.
  intros Hop Hex.
  destruct (wp_exec _ _ _ _ _ _ _ _
              (scrape_session_calls_wp url wait_for_selector s [] Hop) Hex)
    as [_ (tr0 & Heq & Hall)].
  simpl in Heq. by subst.
Qed.

(** A task of a batch that is about to make a call is not about to open or
    release a session. *)
Lemma task_ok_next_call s1 url c k tr :
  session_open s1 = true →
  task_ok s1 url (Running (Call c k) tr) →
  session_call c = false.
Proof.
  intros Hop [_ Hres].
  destruct (exec_exists (k (Raise EmptyString)) s1) as (tr' & o & s' & Hex).
  pose proof (scrape_exec_session_calls _ _ _ _ _ _ Hop
                (Hres _ _ _ (exec_Call c k _ _ _ _ _ Hex))) as Hall.
  rewrite calls_app, calls_Ev in Hall.
  apply Forall_app in Hall as [_ Hall]. by apply Forall_cons in Hall as [? _].
Qed.

(** X14: the tasks of a batch share the one session that the batch opened.
    Under every schedule and at every moment, the scraper object is the one
    that [__aenter__] left, and no call made since the tasks were started
    opens or releases a session: no task starts a driver, launches a
    browser, creates a context, or closes any of them under the others. *)
Theorem batch_tasks_share_the_session eng s h K urls st :
  0 ≤ K →
  session_open s = true →
  rtc (step eng) (start s h K urls) st →
  scraper st = s ∧
  ∃ tr, history st = h ++ tr ∧ Forall (λ c, session_call c = false) (calls tr).
Proof.
  intros HK Hop Hrtc.
  assert (batch_inv s K urls st ∧
          ∃ tr, history st = h ++ tr ∧
                Forall (λ c, session_call c = false) (calls tr))
    as [(Hs & _) Hhist]; [|done].
  revert st Hrtc. apply rtc_ind_r.
  - split; [by apply start_batch_inv|]. exists []. by rewrite app_nil_r.
  - intros mid st _ Hstep [Hinv (tr & Hh & Hall)].
    split; [by eapply step_batch_inv|].
    destruct Hinv as (_ & _ & _ & Hok).
    destruct Hstep as [st i url Hi Hgt|st i c k tr1 Hi|st i k tr1 Hi|st i k tr1 Hi
                      |st i u k tr1 Hi|st i o tr1 Hi]; simpl in *;
      try by exists tr.
    + destruct (Forall2_lookup_r _ _ _ _ _ Hok Hi) as (url0 & _ & Htask).
      eexists. rewrite Hh, <- app_assoc. split; [reflexivity|].
      rewrite calls_app, calls_Ev, calls_nil. apply Forall_app_2; [done|].
      apply Forall_cons_2; [|by apply Forall_nil_2].
      by eapply task_ok_next_call.
    + eexists. rewrite Hh, <- app_assoc. split; [reflexivity|].
      by rewrite calls_app, calls_Tick, calls_nil, app_nil_r.
Qed.

Lemma batch_tasks_share_the_session_witness :
  0 ≤ 2 ∧ session_open open_scraper = true ∧
  rtc (step example_engine) (start open_scraper [] 2 example_urls) two_active ∧
  scraper two_active = open_scraper ∧
  ∃ tr, history two_active = [] ++ tr ∧
        Forall (λ c, session_call c = false) (calls tr).
Proof.
  split; [lia|]. split; [reflexivity|]. split; [exact two_active_reachable|].
  apply (batch_tasks_share_the_session example_engine open_scraper [] 2
           example_urls two_active); [lia | reflexivity | exact two_active_reachable].
Defined.

(** Nothing moves while no task runs and no permit is left. *)
Lemma step_needs_permit eng st st' :
  step eng st st' →
  sem_value st ≤ 0 →
  ∃ i p tr, tasks st !! i = Some (Running p tr).
Proof.
  intros Hstep Hsem.
  destruct Hstep as [st i url Hi Hgt|st i c k tr1 Hi|st i k tr1 Hi|st i k tr1 Hi
                    |st i u k tr1 Hi|st i o tr1 Hi]; [lia|by eexists _, _, _..].
Qed.

Lemma queued_stuck eng s h K urls st :
  K ≤ 0 → ¬ step eng (start s h K urls) st.
Proof.
  intros HK Hstep. destruct (step_needs_permit _ _ _ Hstep HK) as (i & p & tr & Hi).
  simpl in Hi. rewrite list_lookup_fmap in Hi.
  by destruct (urls !! i).
Qed.

Lemma queued_only eng s h K urls st :
  K ≤ 0 → rtc (step eng) (start s h K urls) st → st = start s h K urls.
Proof.
  intros HK Hrtc. destruct (rtc_inv _ _ Hrtc) as [->|(mid & Hstep & _)]; [done|].
  by destruct (queued_stuck _ _ _ _ _ _ HK Hstep).
Qed.

(** X15: a batch with [max_concurrent = 0] over at least one URL never
    returns and never raises: once the session is open, every task waits
    for a permit that no task will ever release, so the event loop has no
    step to make while [gather] still waits for all of them.  With a
    negative [max_concurrent] the semaphore cannot be built, and that error
    is the only outcome. *)
Theorem batch_without_permits_has_no_results eng urls headless K h s1 h1 :
  run eng __aenter__ (__init__ headless 30000) h = (Ok tt, s1, h1) →
  urls ≠ [] →
  K ≤ 0 →
  (∀ st, ¬ step eng (start s1 h1 K urls) st) ∧
  gathered (tasks (start s1 h1 K urls)) = None ∧
  ∀ out, scrape_urls_batch eng urls headless K h out →
    K < 0 ∧ out = Raise "Semaphore initial value must be >= 0".
Proof.
  intros Henter Hne HK. split; [|split].
  - intros st. by apply queued_stuck.
  - by destruct urls.
  - intros out Hout.
    destruct Hout as [e s2 h2 E|s2 h2 E Hneg|s2 h2 st i e tr E HK' Hrtc Hi
                     |s2 h2 st rs E HK' Hrtc Hg];
      rewrite Henter in E; simplify_eq; [done|exfalso..].
    + apply queued_only in Hrtc as ->; [|done]. simpl in Hi.
      rewrite list_lookup_fmap in Hi. by destruct (urls !! i).
    + apply queued_only in Hrtc as ->; [|done]. by destruct urls.
Qed.

Lemma batch_without_permits_has_no_results_witness :
  run example_engine __aenter__ (__init__ true 30000) []
    = (Ok tt, open_scraper,
       [Ev PlaywrightStart (Ok 1%nat); Ev (ChromiumLaunch 1%nat true) (Ok 2%nat);
        Ev (NewContext 2%nat 1920 1080 user_agent) (Ok 3%nat)]) ∧
  example_urls ≠ [] ∧ 0 ≤ 0 ∧
  ∀ out, ¬ scrape_urls_batch example_engine example_urls true 0 [] out.
Proof.
  split; [vm_compute; reflexivity|]. split; [done|]. split; [lia|].
  intros out Hout.
  destruct (batch_without_permits_has_no_results example_engine example_urls true 0 []
              open_scraper
              [Ev PlaywrightStart (Ok 1%nat); Ev (ChromiumLaunch 1%nat true) (Ok 2%nat);
               Ev (NewContext 2%nat 1920 1080 user_agent) (Ok 3%nat)])
    as (_ & _ & Hno).
  - vm_compute; reflexivity.
  - done.
  - lia.
  - destruct (Hno out Hout) as [Hlt _]. lia.
Defined.

Lemma no_tasks_only eng s h K st :
  rtc (step eng) (start s h K []) st → st = start s h K [].
Proof.
  intros Hrtc. destruct (rtc_inv _ _ Hrtc) as [->|(mid & Hstep & _)]; [done|].
  inversion Hstep; simplify_eq/=.
Qed.

(** X16: a batch over no URL at all still opens the session and, once it
    is open and the semaphore could be built, returns the empty list and
    nothing else, also with [max_concurrent = 0]: no task waits for a
    permit. *)
Theorem batch_of_no_urls eng headless K h s1 h1 out :
  run eng __aenter__ (__init__ headless 30000) h = (Ok tt, s1, h1) →
  0 ≤ K →
  scrape_urls_batch eng [] headless K h out ↔ out = Ok [].
Proof.
  intros Henter HK. split.
  - intros Hout.
    destruct Hout as [e s2 h2 E|s2 h2 E Hneg|s2 h2 st i e tr E HK' Hrtc Hi
                     |s2 h2 st rs E HK' Hrtc Hg];
      rewrite Henter in E; simplify_eq; [lia|exfalso|].
    + by apply no_tasks_only in Hrtc as ->.
    + rewrite __aexit___returns. apply no_tasks_only in Hrtc as ->.
      simpl in Hg. by simplify_eq.
  - intros ->.
    pose proof (batch_returns eng [] headless K h s1 h1 (start s1 h1 K []) []
                  Henter HK (rtc_refl _ _) eq_refl) as Hout.
    by rewrite __aexit___returns in Hout.
Qed.

Lemma batch_of_no_urls_witness :
  scrape_urls_batch example_engine [] true 0 [] (Ok []).
Proof.
  apply (batch_of_no_urls example_engine true 0 [] open_scraper
           [Ev PlaywrightStart (Ok 1%nat); Ev (ChromiumLaunch 1%nat true) (Ok 2%nat);
            Ev (NewContext 2%nat 1920 1080 user_agent) (Ok 3%nat)]).
  - vm_compute; reflexivity.
  - lia.
  - reflexivity.
Defined.

(** X17: with a semaphore that can be built, a batch raises only if the
    session could not be opened, and then with the exception of the setup:
    no page that fails to load, and no schedule, makes the batch raise. *)
Theorem batch_raises_only_at_setup eng urls headless K h e :
  0 ≤ K →
  scrape_urls_batch eng urls headless K h (Raise e) →
  (run eng __aenter__ (__init__ headless 30000) h).1.1 = Raise e.
Proof.
  intros HK Hout. remember (Raise e) as out eqn:Ho.
  destruct Hout as [e' s2 h2 E|s2 h2 E Hneg|s2 h2 st i e' tr E HK' Hrtc Hi
                   |s2 h2 st rs E HK' Hrtc Hg].
  - rewrite E. simpl. congruence.
  - lia.
  - exfalso.
    assert (session_open s2 = true) as Hop by by eapply __aenter___opens.
    destruct (reachable_batch_inv _ _ _ _ _ _ Hop HK Hrtc) as (_ & _ & _ & Hall).
    destruct (Forall2_lookup_r _ _ _ _ _ Hall Hi) as (url & _ & Hok).
    simpl in Hok. by destruct (scrape_exec_returns _ _ _ _ _ _ Hop Hok).
  - by rewrite __aexit___returns in Ho.
Qed.

Lemma batch_raises_only_at_setup_witness :
  0 ≤ 2 ∧
  scrape_urls_batch launch_fails example_urls true 2 []
    (Raise "Executable doesn't exist") ∧
  (run launch_fails __aenter__ (__init__ true 30000) []).1.1
    = Raise "Executable doesn't exist".
Proof.
  assert (scrape_urls_batch launch_fails example_urls true 2 []
            (Raise "Executable doesn't exist")) as Hout.
  { eapply batch_enter_raises. vm_compute. reflexivity. }
  split; [lia|]. split; [exact Hout|].
  apply (batch_raises_only_at_setup launch_fails example_urls true 2 []
           "Executable doesn't exist"); [lia | exact Hout].
Defined.

(** ** More of the module: where the metadata comes from *)

Lemma read_off_tag_app_r tr1 tr2 el k v :
  read_off_tag tr2 el k v → read_off_tag (tr1 ++ tr2) el k v.
Proof. unfold read_off_tag. rewrite !elem_of_app. tauto. Qed.

Lemma read_off_tag_app_l tr1 tr2 el k v :
  read_off_tag tr1 el k v → read_off_tag (tr1 ++ tr2) el k v.
Proof. unfold read_off_tag. rewrite !elem_of_app. tauto. Qed.

Lemma read_off_tag_head meta name property content k :
  name = Some k ∨ property = Some k →
  read_off_tag [Ev (GetAttribute meta "name") (Ok name);
                Ev (GetAttribute meta "property") (Ok property);
                Ev (GetAttribute meta "content") (Ok content)] meta k content.
Proof.
  unfold read_off_tag. intros [->| ->]; (split; [|set_solver]); [left|right];
    set_solver.
Qed.

Lemma truthy_str_default o : truthy_str o = true → o = Some (default EmptyString o).
Proof. by destruct o. Qed.

(** What the loop adds to the metadata was read off one of the tags, and an
    exception that ends the loop was raised by one of its queries. *)
Lemma for_meta_tags_source_wp w tags m s tr Q :
  (∀ o m' tr',
     (∀ k v, m' !! k = Some v →
        m !! k = Some v ∨ ∃ el, el ∈ tags ∧ read_off_tag tr' el k v) →
     (∀ e, o = Raise e → ∃ c, (c, e) ∈ failures tr') →
     Q o m' s (tr ++ tr')) →
  mwp w (for_meta_tags tags) m s tr Q.
Proof.
  revert m tr Q. induction tags as [|meta rest IH]; intros m tr Q HQ.
  - apply mwp_ret. trace_norm tr. apply HQ; [by left | done].
  - cbn [for_meta_tags]. wp_auto.
    1-3: apply IH; intros o m' tr' Hsrc Hraise; trace_norm tr;
      change (?e1 :: ?e2 :: ?e3 :: tr') with ([e1; e2; e3] ++ tr');
      apply HQ;
      [|intros e He; destruct (Hraise e He) as [c Hc]; exists c;
        by autorewrite with trace];
      intros k v Hk;
      destruct (Hsrc k v Hk) as [Hm|(el & Hel & Hread)];
      [|by right; exists el; split; [set_solver | apply read_off_tag_app_r]].
    4-6: trace_norm tr; apply HQ; [by left|];
      intros e' [= <-]; eexists; autorewrite with trace; by left.
    + apply lookup_insert_Some in Hm as [[<- <-]|[_ Hm]]; [right|by left].
      exists meta. split; [set_solver|].
      apply read_off_tag_app_l, read_off_tag_head. left.
      apply truthy_str_default. by destruct (truthy_str a).
    + apply lookup_insert_Some in Hm as [[<- <-]|[_ Hm]]; [right|by left].
      exists meta. split; [set_solver|].
      apply read_off_tag_app_l, read_off_tag_head. right.
      apply truthy_str_default. by destruct (truthy_str a0).
    + by left.
Qed.

Lemma entry_source_tags pg tags tr tr2 k v :
  (∃ el, el ∈ tags ∧ read_off_tag tr el k v) →
  entry_source pg (Ev (QuerySelectorAll pg "meta") (Ok tags) :: tr ++ tr2) k v.
Proof.
  intros (el & Hel & Hread). left. exists tags, el. split; [by left|].
  split; [done|].
  apply (read_off_tag_app_r [_]), read_off_tag_app_l, Hread.
Qed.

(** Find an event in an explicit trace. *)
Ltac find_event :=
  first [ left | right; find_event | apply elem_of_app; right; find_event ].

(** X18: every entry of the metadata that [_extract_metadata] returns was
    read off the page, whatever the engine answers.  Its key is the [name]
    or the [property] attribute of one of the elements that the query for
    [meta] returned and its value the [content] attribute of that element;
    or it is [canonical] with the [href] of the element found by the
    canonical selector; or [language] with the [lang] attribute of the
    element found for [html]; or [extraction_error] with the message of an
    exception that one of the queries raised. *)
Theorem extract_metadata_entries_were_read eng pg s h :
  ∃ m tr,
    run eng (_extract_metadata pg) s h = (Ok m, s, h ++ tr) ∧
    ∀ k v, m !! k = Some v → entry_source pg tr k v.
Proof.
  by_wp_run false. clear o s' h'.
  unfold _extract_metadata, extract_try. wp_auto.
  { apply for_meta_tags_source_wp. intros [[]|e] m' tr' Hsrc Hraise; cbn beta iota.
    all: wp_auto; trace_norm h; eexists _, _; (split; [reflexivity|]).
    all: intros k v Hk; unfold id in Hk.
    all: repeat
      (apply lookup_insert_Some in Hk as [[<- <-]|[_ Hk]];
       [right;
        first
          [ left; split; [reflexivity|]; eexists; split; find_event
          | right; left; split; [reflexivity|]; eexists; split; find_event
          | right; right; split; [reflexivity|]; eexists _, _;
            split; [reflexivity|]; autorewrite with trace; find_event
          | right; right; split; [reflexivity|];
            destruct (Hraise _ eq_refl) as [c Hc]; exists c; eexists;
            split; [reflexivity|]; autorewrite with trace;
            first [exact Hc | apply elem_of_app; left; exact Hc] ]|]).
    all: destruct (Hsrc k v Hk) as [Hm|Hread]; [by rewrite lookup_empty in Hm|].
    all: first [ by apply entry_source_tags
               | rewrite <- (app_nil_r tr'); by apply entry_source_tags ]. }
  trace_norm h. eexists _, _. split; [reflexivity|].
  intros k v Hk. unfold id in Hk.
  apply lookup_insert_Some in Hk as [[<- <-]|[_ Hk]]; [|by rewrite lookup_empty in Hk].
  right; right; right. split; [reflexivity|]. eexists _, _. split; [reflexivity|].
  autorewrite with trace. by left.
Qed.

(** ** More of the module: no tag is dropped *)

(** Against [engine_of page], a run sees the answers of [page]. *)
Lemma run_answers {A} page (p : proc A) s h :
  ∃ tr, (run (engine_of page) p s h).2 = h ++ tr ∧ answers page tr.
Proof.
  revert s h. induction p as [a|c k IH|k IH|k IH|u k IH]; intros s h; simpl.
  - exists []. split; [by rewrite app_nil_r | constructor].
  - destruct (IH (page c) s (h ++ [Ev c (page c)])) as (tr & -> & Htr).
    exists (Ev c (page c) :: tr). split; [by rewrite <- app_assoc|].
    by constructor.
  - destruct (IH "2024-01-01T00:00:00" s (h ++ [Tick "2024-01-01T00:00:00"]))
      as (tr & -> & Htr).
    eexists (Tick _ :: tr). split; [by rewrite <- app_assoc|].
    by constructor.
  - apply IH.
  - apply IH.
Qed.

Lemma answers_app page tr1 tr2 :
  answers page (tr1 ++ tr2) ↔ answers page tr1 ∧ answers page tr2.
Proof. apply Forall_app. Qed.

Lemma answers_cons page c o tr :
  answers page (Ev c o :: tr) ↔ o = page c ∧ answers page tr.
Proof. unfold answers. by rewrite Forall_cons. Qed.

(** The loop over the meta tags of a page that does not change: no entry
    is removed, and if the loop ends normally, every tag with a name and a
    content, or without a name but with a property and a content, has its
    key in the metadata. *)
Lemma for_meta_tags_complete_wp page w tags m s tr Q :
  (∀ o m' tr',
     (answers page tr' →
      (∀ k, is_Some (m !! k) → is_Some (m' !! k)) ∧
      (∀ u, o = Ok u →
         ∀ el name property content,
           el ∈ tags →
           page (GetAttribute el "name") = Ok name →
           page (GetAttribute el "property") = Ok property →
           page (GetAttribute el "content") = Ok content →
           truthy_str content = true →
           (truthy_str name = true → is_Some (m' !! default EmptyString name)) ∧
           (truthy_str name = false → truthy_str property = true →
            is_Some (m' !! default EmptyString property)))) →
     Q o m' s (tr ++ tr')) →
  mwp w (for_meta_tags tags) m s tr Q.
Proof.
  revert m tr Q. induction tags as [|meta rest IH]; intros m tr Q HQ.
  - apply mwp_ret. trace_norm tr. apply HQ. intros _. split; [done|].
    intros _ _ el name property content Hel. by apply elem_of_nil in Hel.
  - cbn [for_meta_tags]. wp_auto.
    1-3: apply IH; intros o m' tr' Hrest; trace_norm tr; apply HQ;
      rewrite !answers_cons; intros (Hname & Hprop & Hcont & Htr');
      destruct (Hrest Htr') as [Hmono Hall]; clear Hrest.
    4-6: trace_norm tr; apply HQ; intros _; split; [done|]; by intros u.
    all: split;
      [intros k Hk; apply Hmono; rewrite ?lookup_insert_is_Some'; auto|].
    all: intros u Ho el name property content Hel Hn Hp Hc Hct;
      apply elem_of_cons in Hel as [->|Hel]; [|by eapply Hall].
    all: rewrite Hn in Hname; rewrite Hp in Hprop; rewrite Hc in Hcont;
      simplify_eq.
    all: split; [intros Hnm|intros Hnm Hpr];
      rewrite ?Hnm, ?Hpr, ?Hct in *; try done.
    all: apply Hmono; rewrite lookup_insert_is_Some'; by left.
Qed.

Lemma is_Some_insert_mono (m : metadata) k v k' :
  is_Some (m !! k') → is_Some (<[k := v]> m !! k').
Proof. rewrite lookup_insert_is_Some'. by right. Qed.

(** X19: on a page that does not change while it is read, the extractor
    drops no meta tag, unless it reports an extraction error.  For every
    element that the query for [meta] returns and whose [content] is not
    empty, the metadata has the element's [name] as a key if the name is
    not empty, and otherwise its [property] if that is not empty: the name
    has priority over the property. *)
Theorem extract_metadata_keeps_every_tag (page : ∀ c : call, outcome (payload c))
    pg s h tags el name property content :
  page (QuerySelectorAll pg "meta") = Ok tags →
  el ∈ tags →
  page (GetAttribute el "name") = Ok name →
  page (GetAttribute el "property") = Ok property →
  page (GetAttribute el "content") = Ok content →
  truthy_str content = true →
  ∃ m tr,
    run (engine_of page) (_extract_metadata pg) s h = (Ok m, s, h ++ tr) ∧
    (is_Some (m !! "extraction_error") ∨
     (truthy_str name = true → is_Some (m !! default EmptyString name)) ∧
     (truthy_str name = false → truthy_str property = true →
      is_Some (m !! default EmptyString property))).
Proof.
  intros Htags Hel Hn Hp Hc Hct.
  assert (∃ m tr,
    run (engine_of page) (_extract_metadata pg) s h = (Ok m, s, h ++ tr) ∧
    (answers page tr →
     is_Some (m !! "extraction_error") ∨
     (truthy_str name = true → is_Some (m !! default EmptyString name)) ∧
     (truthy_str name = false → truthy_str property = true →
      is_Some (m !! default EmptyString property)))) as (m & tr & E & Hm).
  { by_wp_run false. clear o s' h'.
    unfold _extract_metadata, extract_try. wp_auto.
    { apply (for_meta_tags_complete_wp page). intros [[]|e] m' tr' Hloop; cbn beta iota.
      all: wp_auto; trace_norm h; eexists _, _; (split; [reflexivity|]).
      all: rewrite answers_cons; intros [Hq Htr'];
           try apply answers_app in Htr' as [Htr' _].
      all: destruct (Hloop Htr') as [Hmono Hall]; clear Hloop; unfold id.
      all: try by (left; rewrite lookup_insert_is_Some'; left).
      all: right; rewrite Htags in Hq; simplify_eq.
      all: destruct (Hall tt eq_refl el name property content Hel Hn Hp Hc Hct)
             as [H1 H2].
      all: split; [intros Hnm|intros Hnm Hpr];
           repeat apply is_Some_insert_mono; auto. }
    trace_norm h. eexists _, _. split; [reflexivity|]. intros _. left.
    unfold id. rewrite lookup_insert_is_Some'. by left. }
  exists m, tr. split; [exact E|]. apply Hm.
  destruct (run_answers page (_extract_metadata pg) s h) as (tr0 & Heq & Hans).
  rewrite E in Heq. simpl in Heq. by apply app_inv_head in Heq as ->.
Qed.

Lemma extract_metadata_keeps_every_tag_witness :
  example_page (QuerySelectorAll 4%nat "meta") = Ok [100%nat; 101%nat] ∧
  ∃ m tr,
    run example_engine (_extract_metadata 4%nat) open_scraper []
      = (Ok m, open_scraper, [] ++ tr) ∧
    (is_Some (m !! "extraction_error") ∨
     (truthy_str None = true → is_Some (m !! default EmptyString None)) ∧
     (truthy_str None = false → truthy_str (Some "og:title") = true →
      is_Some (m !! default EmptyString (Some "og:title")))).
Proof.
  split; [reflexivity|].
  apply (extract_metadata_keeps_every_tag example_page 4%nat open_scraper []
           [100%nat; 101%nat] 101%nat None (Some "og:title") (Some "Example")).
  - reflexivity.
  - set_solver.
  - reflexivity.
  - reflexivity.
  - reflexivity.
  - reflexivity.
Defined.
